(** * dupe_remover: the duplicate index and the deletion queue of find_clones.py

    A shallow embedding of [find_clones.py] (classes [Duplicate],
    [DeletionEntry], [Session], [Storage], [DeletionQueue] and [App]) and
    the properties of it that the specification states.

    Conventions of the embedding.
    - A Python [str] is a [string]: the bytes of its UTF-8 encoding, which
      for a file name are the bytes of the name in the file system.  SQLite
      orders TEXT by [memcmp] of exactly these bytes, which is [String.le].
      A name that [os.walk] met whose bytes are not UTF-8 is a [str] that
      has no UTF-8 encoding; [Py.utf8] tells the two apart.
    - Python objects that are mutated through more than one reference (the
      [DeletionEntry] objects, held by [_queue] and by [_index]) live in an
      object store and are referred to by their position in it.
    - The operating system is a record [World]: the ordinary files, the
      SQLite databases, the JSON documents (three maps from paths, one per
      kind of file), the directories and the log.  The failures it can
      produce are: a file that cannot be opened for reading, a file whose
      [os.unlink] raises, a missing or unparsable queue document, a database
      without the [hashes] table, a database file that cannot be created
      because its directory is missing, a path that cannot be bound to an
      SQL statement because it has no UTF-8 encoding.
    - Code that can raise returns an [outcome]: the value or the exception,
      together with the state reached.  [DeletionEntry.from_dict] can build
      objects whose fields are not of the declared types; the records here
      do not hold such objects, and a run that makes one ends in [Beyond].
    - SHA-256 and [os.walk] are parameters of the code that calls them. *)

From Stdlib Require Import Ascii String.
From stdpp Require Import base gmap strings list sorting fin_maps pretty.

Local Open Scope string_scope.

(** ** Python strings *)

Module Py.

(** [c.lower()] on one byte.  Only A..Z change.  A byte of a multi-byte
    UTF-8 sequence is 0x80 or more and stays as it is.  That decides
    membership in the allow-list as Python does: the one character outside
    ASCII whose [lower()] is ASCII is the Kelvin sign, which gives [k], a
    letter of no word of the list. *)
Definition lower_ascii (c : ascii) : ascii :=
  let n := nat_of_ascii c in
  if bool_decide (65 ≤ n ≤ 90)%nat then ascii_of_nat (n + 32) else c.

(** [s.lower()] *)
Fixpoint lower (s : string) : string :=
  match s with
  | EmptyString => EmptyString
  | String c s' => String (lower_ascii c) (lower s')
  end.

(** [s.rsplit(".", 1)]: split once, at the last dot.  One element when
    [s] has no dot, two otherwise. *)
Fixpoint rsplit_dot (s : string) : list string :=
  match s with
  | EmptyString => [EmptyString]
  | String c rest =>
      match rsplit_dot rest with
      | [h; t] => [String c h; t]
      | _ => if bool_decide (c = "."%char) then [EmptyString; rest]
             else [String c rest]
      end
  end.

(** [l[-1]] on a list that [rsplit] returned (never empty). *)
Definition last_item (l : list string) : string := List.last l EmptyString.

(** ["." in s] *)
Fixpoint has_dot (s : string) : bool :=
  match s with
  | EmptyString => false
  | String c rest => bool_decide (c = "."%char) || has_dot rest
  end.

(** [os.path.join(a, b)] of posixpath, for two components. *)
Definition starts_with_slash (s : string) : bool :=
  match s with
  | String c _ => bool_decide (c = "/"%char)
  | EmptyString => false
  end.

Fixpoint ends_with_slash (s : string) : bool :=
  match s with
  | EmptyString => false
  | String c EmptyString => bool_decide (c = "/"%char)
  | String _ rest => ends_with_slash rest
  end.

Definition path_join (a b : string) : string :=
  if starts_with_slash b then b
  else if bool_decide (a = EmptyString) || ends_with_slash a then a ++ b
  else a ++ "/" ++ b.

(** The newline, and [sep.join(l)]. *)
Definition nl : string := String (ascii_of_nat 10) EmptyString.

Fixpoint join (sep : string) (l : list string) : string :=
  match l with
  | [] => EmptyString
  | [x] => x
  | x :: rest => x ++ sep ++ join sep rest
  end.

(** Well-formed UTF-8, as the codec of Python has it: the shortest form
    only, no surrogates, nothing above U+10FFFF.  [byte_in lo hi c] is
    [lo <= c <= hi]. *)
Definition byte_in (lo hi : nat) (c : ascii) : bool :=
  (lo <=? nat_of_ascii c)%nat && (nat_of_ascii c <=? hi)%nat.

Definition continuation : ascii → bool := byte_in 128 191.

(** The first two bytes of a sequence of three, and of a sequence of four. *)
Definition starts_three (c0 c1 : ascii) : bool :=
  byte_in 224 224 c0 && byte_in 160 191 c1 ||
  byte_in 225 236 c0 && continuation c1 ||
  byte_in 237 237 c0 && byte_in 128 159 c1 ||
  byte_in 238 239 c0 && continuation c1.

Definition starts_four (c0 c1 : ascii) : bool :=
  byte_in 240 240 c0 && byte_in 144 191 c1 ||
  byte_in 241 243 c0 && continuation c1 ||
  byte_in 244 244 c0 && byte_in 128 143 c1.

(** [s] has a UTF-8 encoding ([s.encode("utf-8")] does not raise): its
    bytes are well-formed UTF-8 throughout. *)
Fixpoint utf8 (s : string) : bool :=
  match s with
  | EmptyString => true
  | String c0 r0 =>
      if byte_in 0 127 c0 then utf8 r0
      else
        match r0 with
        | EmptyString => false
        | String c1 r1 =>
            if byte_in 194 223 c0 then continuation c1 && utf8 r1
            else
              match r1 with
              | EmptyString => false
              | String c2 r2 =>
                  if starts_three c0 c1 then continuation c2 && utf8 r2
                  else
                    match r2 with
                    | EmptyString => false
                    | String c3 r3 =>
                        starts_four c0 c1 && continuation c2 &&
                        continuation c3 && utf8 r3
                    end
              end
        end
  end.

(** [list(s)]: the characters of [s], each as a string.  A well-formed
    sequence is one character; a byte that starts none is a character of
    its own (the surrogate that stands for it). *)
Fixpoint chars (s : string) : list string :=
  match s with
  | EmptyString => []
  | String c0 r0 =>
      let one := String c0 EmptyString :: chars r0 in
      match r0 with
      | EmptyString => one
      | String c1 r1 =>
          if byte_in 194 223 c0 && continuation c1
          then String c0 (String c1 EmptyString) :: chars r1
          else
            match r1 with
            | EmptyString => one
            | String c2 r2 =>
                if starts_three c0 c1 && continuation c2
                then String c0 (String c1 (String c2 EmptyString)) :: chars r2
                else
                  match r2 with
                  | EmptyString => one
                  | String c3 r3 =>
                      if starts_four c0 c1 && continuation c2 && continuation c3
                      then String c0 (String c1 (String c2 (String c3 EmptyString)))
                             :: chars r3
                      else one
                  end
            end
      end
  end.

(** [str(n)] on an [int]. *)
Definition str_of_int (n : Z) : string := pretty n.

(** [str(b)] on a [bool]. *)
Definition str_of_bool (b : bool) : string := if b then "True" else "False".

(** [list(d)] on a [dict] built from the pairs [kvs], later pairs
    overwriting earlier ones: each key once, in the order of its first
    appearance. *)
Fixpoint keys {A} (kvs : list (string * A)) : list string :=
  match kvs with
  | [] => []
  | (k, _) :: rest => k :: filter (λ k', k' ≠ k) (keys rest)
  end.

End Py.

(** ** Data classes *)

Record Duplicate := mkDuplicate {
  content_hash : string;
  files : list string
}.

Record DeletionEntry := mkDeletionEntry {
  duplicate : Duplicate;
  to_keep : string
}.

Global Instance Duplicate_eq_dec : EqDecision Duplicate.
Proof. solve_decision. Defined.

Global Instance DeletionEntry_eq_dec : EqDecision DeletionEntry.
Proof. solve_decision. Defined.

(** [entry.to_keep = k] *)
Definition set_to_keep (k : string) (e : DeletionEntry) : DeletionEntry :=
  mkDeletionEntry (duplicate e) k.

(** The generator [DeletionEntry.to_delete], as the list of what it yields. *)
Fixpoint to_delete_from (keep : string) (fs : list string) : list string :=
  match fs with
  | [] => []
  | filename :: rest =>
      if bool_decide (filename ≠ keep) then filename :: to_delete_from keep rest
      else to_delete_from keep rest
  end.

Definition to_delete (e : DeletionEntry) : list string :=
  to_delete_from (to_keep e) (files (duplicate e)).

(** [DeletionEntry.format_for_output]: the f-string, with the list
    comprehension of its last line. *)
Definition format_for_output (e : DeletionEntry) : string :=
  Py.nl ++ "# duplicates of: " ++ to_keep e ++ Py.nl ++
  "# hash: " ++ content_hash (duplicate e) ++ Py.nl ++
  Py.join Py.nl (filter (λ file, file ≠ to_keep e) (files (duplicate e))) ++
  Py.nl.

(** ** Session *)

Record Session := mkSession { session_dir : string }.

Definition db (s : Session) : string := session_dir s ++ "/hashes.db".
Definition queue_file (s : Session) : string :=
  session_dir s ++ "/deletion_queue.json".

(** ** The world outside the program *)

(** One row of the table [hashes (filename TEXT, hash TEXT)]. *)
Record Row := mkRow { filename : string; hash : string }.

Global Instance Row_eq_dec : EqDecision Row.
Proof. solve_decision. Defined.

(** A JSON document, as [json.load] returns it and [json.dump] takes it,
    its numbers the integers. *)
Local Unset Elimination Schemes.
Inductive json :=
| JNull
| JBool (b : bool)
| JNumber (n : Z)
| JString (s : string)
| JArray (items : list json)
| JObject (members : list (string * json)).
Local Set Elimination Schemes.

(** The exceptions met. *)
Inductive exn :=
| FileNotFoundError (path : string)
| PermissionError (path : string)
| OperationalError (msg : string)
| UnicodeEncodeError
| JSONDecodeError
| KeyError (key : string)
| AttributeError
| TypeError
| ValueError.

Inductive LogRecord :=
| info_skipping (path : string)
| info_processing (path : string)
| info_done
| info_deleting (path : string)
| warning_could_not_delete (path : string) (e : exn)
| warning_does_not_exist (path : string).

Record World := mkWorld {
  (** ordinary files: [Some data] can be read, [None] exists but
      [open(path, "rb")] raises *)
  disk : gmap string (option (list Byte.byte));
  (** ordinary files on which [os.unlink] raises *)
  locked : gset string;
  (** SQLite database files: [Some rows] holds the table [hashes] with
      these rows in rowid order, [None] has no such table *)
  sqlite : gmap string (option (list Row));
  (** text files: [Some j] parses as the JSON document [j], [None] does
      not parse *)
  docs : gmap string (option json);
  (** what [LOGGER] received, oldest first *)
  log : list LogRecord;
  (** the directories that exist, where the program depends on it: a
      database file that is not there yet can be created in these *)
  dirs : gset string
}.

Definition set_disk (d : gmap string (option (list Byte.byte))) (w : World) :=
  mkWorld d (locked w) (sqlite w) (docs w) (log w) (dirs w).
Definition set_sqlite (d : gmap string (option (list Row))) (w : World) :=
  mkWorld (disk w) (locked w) d (docs w) (log w) (dirs w).
Definition set_docs (d : gmap string (option json)) (w : World) :=
  mkWorld (disk w) (locked w) (sqlite w) d (log w) (dirs w).
Definition LOGGER (r : LogRecord) (w : World) :=
  mkWorld (disk w) (locked w) (sqlite w) (docs w) (log w ++ [r]) (dirs w).

(** ** Code that can raise *)

(** How a call ends, and in which state: it returns a value, it raises, or
    it goes on with an object that the records of this embedding do not
    hold ([Beyond]), where the embedding stops following it. *)
Inductive outcome (S A : Type) :=
| Return (a : A) (s : S)
| Raise (e : exn) (s : S)
| Beyond (s : S).
Arguments Return {S A} a s.
Arguments Raise {S A} e s.
Arguments Beyond {S A} s.

Definition state_of {S A} (o : outcome S A) : S :=
  match o with Return _ s => s | Raise _ s => s | Beyond s => s end.

Definition M (S A : Type) : Type := S → outcome S A.

Definition ret {S A} (a : A) : M S A := λ s, Return a s.
Definition raise {S A} (e : exn) : M S A := λ s, Raise e s.
Definition bind {S A B} (c : M S A) (k : A → M S B) : M S B :=
  λ s, match c s with
       | Return a s' => k a s'
       | Raise e s' => Raise e s'
       | Beyond s' => Beyond s'
       end.
Definition gets {S A} (f : S → A) : M S A := λ s, Return (f s) s.
Definition modify {S} (f : S → S) : M S unit := λ s, Return tt (f s).

Notation "'let*' x := c 'in' k" := (bind c (λ x, k))
  (at level 10, x name, c at level 100, k at level 200).
Notation "c ;; k" := (bind c (λ _, k))
  (at level 100, k at level 200, right associativity).

(** [for x in xs: body(x)], stopping at the first exception. *)
Fixpoint for_each {S A} (xs : list A) (body : A → M S unit) : M S unit :=
  match xs with
  | [] => ret tt
  | x :: rest => body x ;; for_each rest body
  end.

(** ** Storage: the content index *)

Module Storage.

(** [Storage._is_supported] *)
Definition allow_list : list string :=
  ["png"; "jpg"; "jpeg"; "tiff"; "bmp"; "gif"].

Definition extension (filename : string) : string :=
  Py.last_item (Py.rsplit_dot filename).

Definition _is_supported (filename : string) : bool :=
  bool_decide (Py.lower (extension filename) ∈ allow_list).

(** [sqlite3.connect(self._session.db)]: opens the database file.  When
    there is none it creates an empty one (no table), which it can only in
    a directory that exists: otherwise [sqlite3.OperationalError]. *)
Definition unable_to_open : exn :=
  OperationalError "unable to open database file".

Definition _connect (s : Session) : M World unit :=
  λ w, match sqlite w !! db s with
       | Some _ => Return tt w
       | None =>
           if bool_decide (session_dir s ∈ dirs w)
           then Return tt (set_sqlite (<[db s := None]> (sqlite w)) w)
           else Raise unable_to_open w
       end.

(** The statements the class executes, on the database of session [s].
    Each raises [sqlite3.OperationalError] when the table is missing. *)
Definition no_such_table : exn := OperationalError "no such table: hashes".

Definition with_table {A} (s : Session)
    (k : list Row → M World A) : M World A :=
  λ w, match sqlite w !! db s with
       | Some (Some rows) => k rows w
       | _ => Raise no_such_table w
       end.

Definition put_table (s : Session) (rows : list Row) : M World unit :=
  modify (λ w, set_sqlite (<[db s := Some rows]> (sqlite w)) w).

(** [CREATE TABLE IF NOT EXISTS hashes (filename TEXT, hash TEXT)] *)
Definition create_table_if_not_exists (s : Session) : M World unit :=
  λ w, match sqlite w !! db s with
       | Some (Some _) => Return tt w
       | _ => put_table s [] w
       end.

(** Binding a [str] to a [?]: the statement takes its UTF-8 encoding, and
    [UnicodeEncodeError] is raised when it has none. *)
Definition bind_text (v : string) : M World unit :=
  if Py.utf8 v then ret tt else raise UnicodeEncodeError.

(** [INSERT INTO hashes VALUES (?, ?)], the statement prepared first and
    the parameters bound then.  The file name is what [os.walk] gave; the
    hash is a hexadecimal digest, which always has an encoding. *)
Definition insert_row (s : Session) (r : Row) : M World unit :=
  with_table s (λ rows,
    bind_text (filename r) ;;
    put_table s (rows ++ [r])).

(** [DELETE FROM hashes WHERE filename = ?].  The path bound is one of a
    [Duplicate]; those that [find_duplicates] returns are text from the
    table, and the binding is taken to succeed. *)
Definition delete_where_filename (s : Session) (f : string) : M World unit :=
  with_table s (λ rows,
    put_table s (filter (λ r, filename r ≠ f) rows)).

(** [SELECT hash FROM hashes GROUP BY hash HAVING COUNT(hash) > 1]:
    one row per hash that at least two rows carry.  SQLite forms the groups
    by sorting on the grouping column, which is the order of its result. *)
Definition count_hash (h : string) (rows : list Row) : nat :=
  length (filter (λ r, hash r = h) rows).

Definition select_duplicate_hashes (rows : list Row) : list string :=
  filter (λ h, 1 < count_hash h rows)
         (merge_sort String.le (remove_dups (hash <$> rows))).

(** [SELECT filename FROM hashes WHERE hash = ? ORDER BY filename] *)
Definition select_filenames_with_hash (h : string) (rows : list Row)
    : list string :=
  merge_sort String.le (filename <$> filter (λ r, hash r = h) rows).

(** [os.path.exists] and [os.unlink] on the database file.  [os.unlink]
    raises [FileNotFoundError] when there is no such file. *)
Definition db_exists (s : Session) : M World bool :=
  gets (λ w, bool_decide (is_Some (sqlite w !! db s))).

Definition db_unlink (s : Session) : M World unit :=
  λ w, if bool_decide (is_Some (sqlite w !! db s))
       then Return tt (set_sqlite (delete (db s) (sqlite w)) w)
       else Raise (FileNotFoundError (db s)) w.

(** [Storage.reset] *)
Definition reset (s : Session) : M World unit :=
  (let* found := db_exists s in
   if found : bool then db_unlink s else ret tt) ;;
  _connect s ;;
  create_table_if_not_exists s.

(** [Storage._find_all_with_hash] *)
Definition _find_all_with_hash (s : Session) (hash_to_find : string)
    : M World (list string) :=
  _connect s ;;
  with_table s (λ rows, ret (select_filenames_with_hash hash_to_find rows)).

(** [Storage.find_duplicates] *)
Fixpoint collect_duplicates (s : Session) (duplicate_hashes : list string)
    : M World (list Duplicate) :=
  match duplicate_hashes with
  | [] => ret []
  | duplicate_hash :: rest =>
      let* fs := _find_all_with_hash s duplicate_hash in
      let* ds := collect_duplicates s rest in
      ret (mkDuplicate duplicate_hash fs :: ds)
  end.

Definition find_duplicates (s : Session) : M World (list Duplicate) :=
  _connect s ;;
  let* duplicate_hashes :=
    with_table s (λ rows, ret (select_duplicate_hashes rows)) in
  collect_duplicates s duplicate_hashes.

(** [Storage.remove] *)
Definition remove (s : Session) (d : Duplicate) : M World unit :=
  _connect s ;;
  for_each (files d) (delete_where_filename s).

Section Hashing.

(** [hashlib.sha256(data).hexdigest()]: the digest of a byte string, in
    hexadecimal. *)
Variable sha256_hexdigest : list Byte.byte → string.

Definition chunk_size : nat := 4096.

(** The loop of [_hash_file]: [file.read(4096)] until it returns [b""],
    each chunk passed to [h.update].  [rest] is what the file still holds
    after the read position and [h] what the hash object was fed so far.
    The fuel bounds the number of reads; [_hash_file] gives enough. *)

Fixpoint read_chunks (fuel : nat) (rest h : list Byte.byte) : list Byte.byte :=
  match fuel with
  | O => h
  | S fuel' =>
      let chunk := take chunk_size rest in
      match chunk with
      | [] => h
      | _ => read_chunks fuel' (drop chunk_size rest) (h ++ chunk)
      end
  end.

(** [Storage._hash_file] *)
Definition _hash_file (filename : string) : M World string :=
  λ w, match disk w !! filename with
       | None => Raise (FileNotFoundError filename) w
       | Some None => Raise (PermissionError filename) w
       | Some (Some data) =>
           Return (sha256_hexdigest (read_chunks (S (length data)) data [])) w
       end.

(** [Storage.store_file] *)
Definition store_file (s : Session) (filename : string) : M World unit :=
  if negb (_is_supported filename) then
    modify (LOGGER (info_skipping filename))
  else
    let* file_hash := _hash_file filename in
    _connect s ;;
    insert_row s (mkRow filename file_hash).

End Hashing.

End Storage.

(** ** DeletionQueue *)

(** [DataClassJsonMixin.to_dict] for the two data classes. *)
Definition Duplicate_to_dict (d : Duplicate) : json :=
  JObject [("content_hash", JString (content_hash d));
           ("files", JArray (JString <$> files d))].

Definition DeletionEntry_to_dict (e : DeletionEntry) : json :=
  JObject [("duplicate", Duplicate_to_dict (duplicate e));
           ("to_keep", JString (to_keep e))].

(** [DataClassJsonMixin.from_dict] of dataclasses_json.  What decoding a
    value gives: [Decoded], [Refused] when it raises, and [Outside] when
    the object built has a field that is not of the declared type or is not
    computed here. *)
Inductive decoded (A : Type) :=
| Decoded (a : A)
| Refused (e : exn)
| Outside.
Arguments Decoded {A} a.
Arguments Refused {A} e.
Arguments Outside {A}.

Global Instance decoded_bind : MBind decoded := λ A B f x,
  match x with
  | Decoded a => f a
  | Refused e => Refused e
  | Outside => Outside
  end.

(** [kvs[key]] on the [dict] that [json.load] built from an object: of the
    members with that name the last one, [KeyError] when there is none.
    Members that are no field are ignored. *)
Fixpoint member (key : string) (members : list (string * json)) : option json :=
  match members with
  | [] => None
  | (k, v) :: rest =>
      match member key rest with
      | Some v' => Some v'
      | None => if bool_decide (k = key) then Some v else None
      end
  end.

Definition field (key : string) (kvs : list (string * json)) : decoded json :=
  match member key kvs with
  | Some v => Decoded v
  | None => Refused (KeyError key)
  end.

(** A field annotated [str]: a [str] is taken as it is and another value
    [v] as [str(v)].  [None] is left as it is, and so not a [str]; the text
    that [str] gives for a list or a dict is not computed here. *)
Definition decode_str (j : json) : decoded string :=
  match j with
  | JString s => Decoded s
  | JNumber n => Decoded (Py.str_of_int n)
  | JBool b => Decoded (Py.str_of_bool b)
  | JNull | JArray _ | JObject _ => Outside
  end.

(** A field annotated [list[str]]: [list(v)] of the value, the items taken
    as they are.  That is the items of an array (strings or not), the
    characters of a string, the keys of an object; a number or a boolean is
    not iterable ([TypeError]), and [None] is left as it is. *)
Definition as_string (j : json) : option string :=
  match j with JString s => Some s | _ => None end.

Definition decode_str_list (j : json) : decoded (list string) :=
  match j with
  | JArray items =>
      match mapM as_string items with
      | Some fs => Decoded fs
      | None => Outside
      end
  | JString s => Decoded (Py.chars s)
  | JObject kvs => Decoded (Py.keys kvs)
  | JNumber _ | JBool _ => Refused TypeError
  | JNull => Outside
  end.

(** [from_dict] of a data class reads the members of a [dict] in the order
    of the fields; on a value that is no [dict] the call of [items()]
    raises [AttributeError]. *)
Definition Duplicate_from_dict (j : json) : decoded Duplicate :=
  match j with
  | JObject kvs =>
      h ← field "content_hash" kvs ≫= decode_str;
      fs ← field "files" kvs ≫= decode_str_list;
      Decoded (mkDuplicate h fs)
  | _ => Refused AttributeError
  end.

(** A field annotated with a data class: [None] is left as it is, another
    value goes through [from_dict] of that class. *)
Definition decode_Duplicate (j : json) : decoded Duplicate :=
  match j with
  | JNull => Outside
  | _ => Duplicate_from_dict j
  end.

Definition DeletionEntry_from_dict (j : json) : decoded DeletionEntry :=
  match j with
  | JObject kvs =>
      d ← field "duplicate" kvs ≫= decode_Duplicate;
      k ← field "to_keep" kvs ≫= decode_str;
      Decoded (mkDeletionEntry d k)
  | _ => Refused AttributeError
  end.

Module DeletionQueue.

(** The object: [objs] is the store of the [DeletionEntry] objects this
    queue created, [_queue] and [_index] hold references into it. *)
Record t := mk {
  _session : Session;
  objs : list DeletionEntry;
  _queue : list nat;
  _index : gmap string nat
}.

(** [DeletionQueue(session)] *)
Definition new (s : Session) : t := mk s [] [] ∅.

(** The entries in queue order: what [__iter__], [persist] and
    [preview_delete_queue] go through. *)
Definition entries (q : t) : list DeletionEntry :=
  omap (λ r, objs q !! r) (_queue q).

(** [get_by_hash]: the reference held by [_index], and the object. *)
Definition get_ref (h : string) (q : t) : option nat := _index q !! h.

Definition get_by_hash (h : string) (q : t) : option DeletionEntry :=
  get_ref h q ≫= λ r, objs q !! r.

(** [clear_deletion_queue] *)
Definition clear_deletion_queue (q : t) : t :=
  mk (_session q) (objs q) [] ∅.

(** [_add_new]: [entry] is a new object. *)
Definition _add_new (entry : DeletionEntry) (q : t) : t :=
  let r := length (objs q) in
  mk (_session q) (objs q ++ [entry]) (_queue q ++ [r])
     (<[content_hash (duplicate entry) := r]> (_index q)).

(** [add] *)
Definition add (d : Duplicate) (keep : string) (q : t) : t :=
  match get_ref (content_hash d) q with
  | Some r =>
      mk (_session q) (alter (set_to_keep keep) r (objs q)) (_queue q) (_index q)
  | None => _add_new (mkDeletionEntry d keep) q
  end.

(** [list.remove(x)] on [_queue]: drops the first item that is [x] or
    equal to [x] (data classes compare by fields), [ValueError] if none. *)
Definition queue_remove (r : nat) (q : t) : option (list nat) :=
  match list_find (λ r', objs q !! r' = objs q !! r) (_queue q) with
  | Some (i, _) => Some (delete i (_queue q))
  | None => None
  end.

(** [remove] *)
Definition remove (d : Duplicate) (q : t) : exn + t :=
  match get_ref (content_hash d) q with
  | None => inr q
  | Some r =>
      match queue_remove r q with
      | Some queue' =>
          inr (mk (_session q) (objs q) queue' (delete (content_hash d) (_index q)))
      | None => inl ValueError
      end
  end.

(** [preview_delete_queue] *)
Definition preview_delete_queue (q : t) : string :=
  Py.join Py.nl (format_for_output <$> entries q).


(** [for entry in data] on what [json.load] returned: the items of an
    array, the keys of an object, the characters of a string; [TypeError]
    on what cannot be iterated. *)
Definition iterate (data : json) : option (list json) :=
  match data with
  | JArray items => Some items
  | JObject kvs => Some (JString <$> Py.keys kvs)
  | JString s => Some (JString <$> Py.chars s)
  | _ => None
  end.

(** The loop of [load]. *)
Fixpoint load_entries (data : list json) (ret : t) : decoded t :=
  match data with
  | [] => Decoded ret
  | entry :: rest =>
      e ← DeletionEntry_from_dict entry;
      load_entries rest (_add_new e ret)
  end.

(** [load] *)
Definition load (s : Session) : M World t :=
  λ w, match docs w !! queue_file s with
       | None => Raise (FileNotFoundError (queue_file s)) w
       | Some None => Raise JSONDecodeError w
       | Some (Some data) =>
           match iterate data with
           | None => Raise TypeError w
           | Some items =>
               match load_entries items (new s) with
               | Decoded q => Return q w
               | Refused e => Raise e w
               | Outside => Beyond w
               end
           end
       end.

End DeletionQueue.

(** ** App: the orchestrator *)

(** [try: c  except Exception as e: handler(e)] *)
Definition try_except {S A} (c : M S A) (handler : exn → M S A) : M S A :=
  λ s, match c s with
       | Return a s' => Return a s'
       | Raise e s' => handler e s'
       | Beyond s' => Beyond s'
       end.

(** [os.path.exists] and [os.unlink] on ordinary files. *)
Definition os_path_exists (path : string) : M World bool :=
  gets (λ w, bool_decide (is_Some (disk w !! path))).

Definition os_unlink (path : string) : M World unit :=
  λ w, if bool_decide (path ∈ locked w) then Raise (PermissionError path) w
       else if bool_decide (is_Some (disk w !! path))
            then Return tt (set_disk (delete path (disk w)) w)
            else Raise (FileNotFoundError path) w.

Module App.

(** The object.  [_storage] is [Storage(_session)], which has no state of
    its own. *)
Record t := mk {
  _session : Session;
  _delete_queue : DeletionQueue.t
}.

(** [App(session)] *)
Definition new (s : Session) : t := mk s (DeletionQueue.new s).

(** A method runs on the object and the world. *)
Definition state : Type := t * World.

Definition in_world {A} (c : M World A) : M state A :=
  λ st, match c st.2 with
        | Return a w => Return a (st.1, w)
        | Raise e w => Raise e (st.1, w)
        | Beyond w => Beyond (st.1, w)
        end.

Definition self : M state t := gets fst.

Definition set_queue (q : DeletionQueue.t) : M state unit :=
  modify (λ st, (mk (_session st.1) q, st.2)).

(** [clear_deletion_queue] *)
Definition clear_deletion_queue : M state unit :=
  let* app := self in
  set_queue (DeletionQueue.clear_deletion_queue (_delete_queue app)).


(** [remove_from_deletion_queue] *)
Definition remove_from_deletion_queue (d : Duplicate) : M state unit :=
  let* app := self in
  match DeletionQueue.remove d (_delete_queue app) with
  | inr q => set_queue q
  | inl e => raise e
  end.

(** [get_all_duplicates] *)
Definition get_all_duplicates : M state (list Duplicate) :=
  let* app := self in
  in_world (Storage.find_duplicates (_session app)).


(** [preview_deletion_queue] *)
Definition preview_deletion_queue : M state string :=
  let* app := self in
  ret (DeletionQueue.preview_delete_queue (_delete_queue app)).

(** The body of the inner loop of [do_delete_queued_files]. *)
Definition delete_file (filename : string) : M World unit :=
  modify (LOGGER (info_deleting filename)) ;;
  let* found := os_path_exists filename in
  if found : bool then
    try_except (os_unlink filename)
      (λ e, modify (LOGGER (warning_could_not_delete filename e)))
  else
    modify (LOGGER (warning_does_not_exist filename)).

(** The body of the outer loop, for the entry object at reference [r]. *)
Definition delete_entry (r : nat) : M state unit :=
  let* app := self in
  match DeletionQueue.objs (_delete_queue app) !! r with
  | None => ret tt
  | Some entry =>
      in_world (for_each (to_delete entry) delete_file) ;;
      remove_from_deletion_queue (duplicate entry) ;;
      let* app := self in
      in_world (Storage.remove (_session app) (duplicate entry))
  end.

(** [for entry in self._delete_queue]: a list iterator keeps a position
    into the list itself, and each step reads the list as it then is.
    [i] is that position.  [None] when [fuel] steps did not reach the end. *)
Fixpoint for_queue (fuel i : nat) (st : state) : option (outcome state unit) :=
  match fuel with
  | O => None
  | S fuel' =>
      match DeletionQueue._queue (_delete_queue st.1) !! i with
      | None => Some (Return tt st)
      | Some r =>
          match delete_entry r st with
          | Return _ st' => for_queue fuel' (S i) st'
          | Raise e st' => Some (Raise e st')
          | Beyond st' => Some (Beyond st')
          end
      end
  end.

(** [do_delete_queued_files] *)
Definition do_delete_queued_files (st : state) : option (outcome state unit) :=
  for_queue (S (length (DeletionQueue._queue (_delete_queue st.1)))) 0 st.



Section Sweep.

Variable sha256_hexdigest : list Byte.byte → string.

(** [os.walk(top_dir)]: the triples [(root, dirs, files)] it yields.  The
    sweep changes no directory, so they are a function of [top_dir]. *)
Variable os_walk : string → list (string * list string * list string).

(** The body of the inner loop of [analyze_dir], from the log line on. *)
Definition process (full_file_path : string) : M state unit :=
  in_world (modify (LOGGER (info_processing full_file_path))) ;;
  let* app := self in
  in_world (Storage.store_file sha256_hexdigest (_session app) full_file_path).

(** The body of the outer loop, for one triple of the walk. *)
Definition visit (triple : string * list string * list string) : M state unit :=
  let '(root, _, fs) := triple in
  for_each fs (λ file, process (Py.path_join root file)).

(** [analyze_dir] *)
Definition analyze_dir (top_dir : string) : M state unit :=
  (let* app := self in in_world (Storage.reset (_session app))) ;;
  clear_deletion_queue ;;
  for_each (os_walk top_dir) visit ;;
  in_world (modify (LOGGER info_done)).

End Sweep.

End App.

(** ** Vocabulary of the statements *)

(** The rows the index of session [s] holds (none when there is no table). *)
Definition rows_of (s : Session) (w : World) : list Row :=
  match sqlite w !! db s with
  | Some (Some rows) => rows
  | _ => []
  end.

(** The paths recorded with hash [h], in table order. *)
Definition recorded_with (h : string) (rows : list Row) : list string :=
  filename <$> filter (λ r, hash r = h) rows.

(** The groups [find_duplicates] builds from the rows of the table. *)
Definition groups (rows : list Row) : list Duplicate :=
  (λ h, mkDuplicate h (Storage.select_filenames_with_hash h rows))
    <$> Storage.select_duplicate_hashes rows.

(** The hash an entry is filed under, and the hashes of the entries of a
    queue in queue order. *)
Definition hash_of (e : DeletionEntry) : string := content_hash (duplicate e).

Definition hashes (q : DeletionQueue.t) : list string :=
  hash_of <$> DeletionQueue.entries q.

Definition hash_at (q : DeletionQueue.t) (r : nat) : option string :=
  hash_of <$> DeletionQueue.objs q !! r.

(** Every reference held in [_queue] points to an object. *)
Definition refs_valid (q : DeletionQueue.t) : Prop :=
  ∀ r, r ∈ DeletionQueue._queue q → r < length (DeletionQueue.objs q).

(** What Python guarantees of a queue that only [add], [remove] and
    [clear_deletion_queue] have touched: references point to objects,
    [_index] files exactly the queued entries under their hashes, and no
    two queued entries share a hash. *)
Record wf (q : DeletionQueue.t) : Prop := mk_wf {
  wf_refs : refs_valid q;
  wf_index : ∀ h r, DeletionQueue._index q !! h = Some r ↔
                    r ∈ DeletionQueue._queue q ∧ hash_at q r = Some h;
  wf_hashes : NoDup (hashes q)
}.

(** A sequence of [add] calls, oldest first. *)
Definition adds (calls : list (Duplicate * string)) (q : DeletionQueue.t)
    : DeletionQueue.t :=
  foldl (λ q c, DeletionQueue.add c.1 c.2 q) q calls.

(** What [add] does to an entry filed under [h]. *)
Definition replace_to_keep (h keep : string) (e : DeletionEntry) : DeletionEntry :=
  if decide (hash_of e = h) then set_to_keep keep e else e.

(** The paths a sweep of [top] comes by, in the order of the walk. *)
Definition walked_paths
    (os_walk : string → list (string * list string * list string))
    (top : string) : list string :=
  triple ← os_walk top; Py.path_join triple.1.1 <$> triple.2.

(** A file that [open(path, "rb")] opens. *)
Definition readable (files : gmap string (option (list Byte.byte)))
    (path : string) : Prop :=
  ∃ data, files !! path = Some (Some data).

(** A file the sweep gets through: not of a supported kind, or readable
    and with a name that can be bound to the [INSERT]. *)
Definition passable (files : gmap string (option (list Byte.byte)))
    (path : string) : Prop :=
  Storage._is_supported path = true →
  readable files path ∧ Py.utf8 path = true.

(** What the sweep logs for the paths it got through. *)
Definition sweep_log (paths : list string) : list LogRecord :=
  p ← paths;
  if Storage._is_supported p then [info_processing p]
  else [info_processing p; info_skipping p].

(** The row a path contributes to the index, if any. *)
Definition record_of (sha : list Byte.byte → string)
    (files : gmap string (option (list Byte.byte))) (path : string)
    : option Row :=
  if Storage._is_supported path then
    match files !! path with
    | Some (Some data) => Some (mkRow path (sha data))
    | _ => None
    end
  else None.

Definition records (sha : list Byte.byte → string)
    (files : gmap string (option (list Byte.byte))) (paths : list string)
    : list Row :=
  omap (record_of sha files) paths.

(** The index of the session of an application holds the table with
    [rows]. *)
Definition index_holds (st : App.state) (rows : list Row) : Prop :=
  sqlite st.2 !! db (App._session st.1) = Some (Some rows).

(** The state in which the sweep of [analyze_dir] starts: index emptied,
    queue cleared. *)
Definition swept_from (st : App.state) : App.state :=
  (App.mk (App._session st.1)
     (DeletionQueue.clear_deletion_queue (App._delete_queue st.1)),
   set_sqlite (<[db (App._session st.1) := Some []]> (sqlite st.2)) st.2).

(** The application is of session [s] and [f] is the path of no row of its
    index. *)
Definition kept_out (f : string) (s : Session) (st : App.state) : Prop :=
  App._session st.1 = s ∧ f ∉ filename <$> rows_of s st.2.

(** The queue once [remove] has taken out the entry at position [i], filed
    under [h]. *)
Definition without (i : nat) (h : string) (q : DeletionQueue.t)
    : DeletionQueue.t :=
  DeletionQueue.mk (DeletionQueue._session q) (DeletionQueue.objs q)
    (delete i (DeletionQueue._queue q)) (delete h (DeletionQueue._index q)).





(** The calls a user of a queue can make, and a sequence of them. *)
Inductive queue_call :=
| call_add (d : Duplicate) (keep : string)
| call_remove (d : Duplicate)
| call_clear.

Definition call (c : queue_call) (q : DeletionQueue.t) : exn + DeletionQueue.t :=
  match c with
  | call_add d keep => inr (DeletionQueue.add d keep q)
  | call_remove d => DeletionQueue.remove d q
  | call_clear => inr (DeletionQueue.clear_deletion_queue q)
  end.

Fixpoint calls (cs : list queue_call) (q : DeletionQueue.t)
    : exn + DeletionQueue.t :=
  match cs with
  | [] => inr q
  | c :: rest =>
      match call c q with
      | inr q' => calls rest q'
      | inl e => inl e
      end
  end.

(** The last entry of a list that is filed under [h]. *)
Definition last_with (h : string) (es : list DeletionEntry)
    : option DeletionEntry :=
  last (filter (λ e, hash_of e = h) es).

(** The world once [sqlite3.connect] has created the database file of the
    session, or found one without the table. *)
Definition opened (s : Session) (w : World) : World :=
  set_sqlite (<[db s := None]> (sqlite w)) w.

(** ["/" in s] *)
Fixpoint has_slash (s : string) : bool :=
  match s with
  | EmptyString => false
  | String c rest => bool_decide (c = "/"%char) || has_slash rest
  end.

(** A stand-in for SHA-256 where a statement is run on a concrete world:
    the bytes themselves, so that different contents have different
    digests. *)
Definition plain_digest (data : list Byte.byte) : string :=
  string_of_list_ascii (ascii_of_byte <$> data).

(** A small world to run statements on: two copies of one picture and a
    text file with the same bytes, a picture that cannot be read, two
    copies of another picture, [os.unlink] raising on the first of them,
    and a file called [JPG]. *)
Definition demo_session : Session := mkSession "/tmp/session".

Definition demo_rows : list Row :=
  [mkRow "/pics/a.jpg" "x"; mkRow "/pics/b.jpg" "x"].

Definition demo_world : World :=
  mkWorld
    (list_to_map
       [("/pics/a.jpg", Some [Byte.x78]); ("/pics/b.jpg", Some [Byte.x78]);
        ("/pics/c.txt", Some [Byte.x78]); ("/pics/d.png", None);
        ("/pics/e.gif", Some [Byte.x79]); ("/pics/f.gif", Some [Byte.x79]);
        ("JPG", Some [])])
    {["/pics/e.gif"]}
    {[db demo_session := Some demo_rows]}
    ∅
    []
    {["/tmp/session"]}.

(** A queue of two decisions, and a world whose index knows both groups. *)
Definition demo_queue : DeletionQueue.t :=
  adds [(mkDuplicate "y" ["/pics/e.gif"; "/pics/f.gif"], "/pics/f.gif");
        (mkDuplicate "x" ["/pics/a.jpg"; "/pics/b.jpg"], "/pics/a.jpg")]
    (DeletionQueue.new demo_session).

Definition queued_world : World :=
  set_sqlite
    {[db demo_session :=
        Some (demo_rows ++
              [mkRow "/pics/e.gif" "y"; mkRow "/pics/f.gif" "y"])%list]}
    demo_world.

(** The same world, with no file on which [os.unlink] raises. *)
Definition unlocked_world : World :=
  mkWorld (disk queued_world) ∅ (sqlite queued_world) (docs queued_world)
    (log queued_world) (dirs queued_world).

Definition demo_walk (top : string)
    : list (string * list string * list string) :=
  if bool_decide (top = "/pics")
  then [("/pics", [], ["a.jpg"; "c.txt"; "d.png"; "b.jpg"; "e.gif"])]
  else [].

(** * Properties *)

Local Open Scope list_scope.
Local Open Scope nat_scope.

(** ** Strings *)

Lemma rsplit_dot_no_dot (s : string) :
  Py.has_dot s = false → Py.rsplit_dot s = [s].
Proof.
  induction s as [|c s IH]; simpl; [done|].
  intros [Hc Hs]%orb_false_elim. rewrite (IH Hs).
  by rewrite Hc.
Qed.

Lemma extension_no_dot (f : string) :
  Py.has_dot f = false → Storage.extension f = f.
Proof.
  intros H. unfold Storage.extension. by rewrite rsplit_dot_no_dot.
Qed.

(** ** DeletionEntry.to_delete *)

Lemma to_delete_from_filter (keep : string) (fs : list string) :
  to_delete_from keep fs = filter (λ f, f ≠ keep) fs.
Proof.
  induction fs as [|f fs IH]; simpl; [done|].
  rewrite filter_cons. case_bool_decide; case_decide; try done; by rewrite IH.
Qed.

(** C8.  The [to_delete] view of an entry is its [duplicate.files] with the
    elements equal to [to_keep] left out and nothing else changed: the same
    elements, as often, in the same relative order. *)
Theorem to_delete_spec (e : DeletionEntry) :
  to_delete e = filter (λ f, f ≠ to_keep e) (files (duplicate e)) ∧
  (∀ f, f ∈ to_delete e ↔ f ∈ files (duplicate e) ∧ f ≠ to_keep e) ∧
  to_delete e `sublist_of` files (duplicate e).
Proof.
  unfold to_delete. rewrite to_delete_from_filter. split; [done|]. split.
  - intros f. rewrite list_elem_of_filter. tauto.
  - apply sublist_filter.
Qed.

(** ** Hashing a file *)

Lemma read_chunks_step (n fuel : nat) (rest h : list Byte.byte) :
  Storage.chunk_size = S n →
  Storage.read_chunks (S fuel) rest h =
    match rest with
    | [] => h
    | _ => Storage.read_chunks fuel (drop (S n) rest) (h ++ take (S n) rest)
    end.
Proof.
  intros Hn. cbn [Storage.read_chunks]. rewrite Hn. by destruct rest.
Qed.

(** The chunked read feeds the whole file to the hash object: the fuel
    given by [_hash_file] is enough. *)
Lemma read_chunks_all (fuel : nat) (rest h : list Byte.byte) :
  length rest < fuel → Storage.read_chunks fuel rest h = h ++ rest.
Proof.
  assert (Hn : Storage.chunk_size = S (pred Storage.chunk_size)) by done.
  revert rest h. induction fuel as [|fuel IH]; intros rest h Hlen; [lia|].
  rewrite (read_chunks_step _ _ _ _ Hn).
  destruct rest as [|b rest]; [by rewrite app_nil_r|].
  rewrite IH.
  - by rewrite <- app_assoc, take_drop.
  - rewrite length_drop. simpl in *. lia.
Qed.

Lemma hash_file_readable sha (f : string) (w : World) (data : list Byte.byte) :
  disk w !! f = Some (Some data) →
  Storage._hash_file sha f w = Return (sha data) w.
Proof.
  intros H. unfold Storage._hash_file. rewrite H.
  by rewrite read_chunks_all by lia.
Qed.

(** ** Storage.reset *)

Lemma reset_eq (s : Session) (w : World) :
  session_dir s ∈ dirs w →
  Storage.reset s w = Return tt (set_sqlite (<[db s := Some []]> (sqlite w)) w).
Proof.
  intros Hdir.
  unfold Storage.reset, bind, Storage.db_exists, Storage.db_unlink, gets,
    ret, Storage._connect, Storage.create_table_if_not_exists,
    Storage.put_table, modify.
  destruct (decide (is_Some (sqlite w !! db s))) as [Hex|Hex].
  - rewrite !(bool_decide_eq_true_2 _ Hex).
    cbn [sqlite set_sqlite dirs]. rewrite lookup_delete_eq.
    rewrite bool_decide_eq_true_2 by done. cbn [sqlite set_sqlite].
    rewrite lookup_insert_eq. unfold set_sqlite; cbn. do 2 f_equal.
    by rewrite insert_insert_eq, insert_delete_eq.
  - assert (sqlite w !! db s = None) as Hno.
    { destruct (sqlite w !! db s); [|done]. by destruct Hex. }
    rewrite (bool_decide_eq_false_2 _ Hex).
    rewrite Hno. rewrite bool_decide_eq_true_2 by done.
    cbn [sqlite set_sqlite]. rewrite lookup_insert_eq.
    unfold set_sqlite; cbn. do 2 f_equal.
    by rewrite insert_insert_eq.
Qed.

Lemma reset_no_directory (s : Session) (w : World) :
  session_dir s ∉ dirs w → sqlite w !! db s = None →
  Storage.reset s w = Raise Storage.unable_to_open w.
Proof.
  intros Hdir Hno.
  unfold Storage.reset, bind, Storage.db_exists, gets, ret, Storage._connect.
  rewrite bool_decide_eq_false_2 by (rewrite Hno; by intros [? ?]).
  by rewrite Hno, bool_decide_eq_false_2.
Qed.

(** However [reset] ends, it leaves no row behind and keeps its hands off
    everything but the database of the session. *)
Lemma reset_rows (s : Session) (w : World) :
  rows_of s (state_of (Storage.reset s w)) = [].
Proof.
  destruct (decide (session_dir s ∈ dirs w)) as [Hdir|Hdir].
  { rewrite reset_eq by done. unfold rows_of. cbn.
    by rewrite lookup_insert_eq. }
  unfold Storage.reset, bind, Storage.db_exists, Storage.db_unlink, gets,
    ret, Storage._connect.
  destruct (decide (is_Some (sqlite w !! db s))) as [Hex|Hex].
  - rewrite !(bool_decide_eq_true_2 _ Hex).
    cbn [sqlite set_sqlite dirs]. rewrite lookup_delete_eq.
    rewrite bool_decide_eq_false_2 by done. unfold rows_of. cbn.
    by rewrite lookup_delete_eq.
  - assert (sqlite w !! db s = None) as Hno.
    { destruct (sqlite w !! db s); [|done]. by destruct Hex. }
    rewrite (bool_decide_eq_false_2 _ Hex).
    rewrite Hno, bool_decide_eq_false_2 by done. unfold rows_of. cbn.
    by rewrite Hno.
Qed.

(** C9 (as the code has it).  In a session directory that exists, [reset]
    returns normally whatever the session held: a database with the table,
    a database file without it, or no file at all (a session never
    initialized); the index afterwards exists and has no row, and nothing
    else in the world changes.  Where neither the file nor the directory
    exists, [reset] raises [sqlite3.OperationalError] and creates nothing. *)
Theorem reset_initializes_empty_index (s : Session) (w : World) :
  (session_dir s ∈ dirs w →
   ∃ w', Storage.reset s w = Return tt w' ∧
         sqlite w' !! db s = Some (Some []) ∧
         rows_of s w' = [] ∧
         (∀ p, p ≠ db s → sqlite w' !! p = sqlite w !! p) ∧
         disk w' = disk w ∧ locked w' = locked w ∧ docs w' = docs w ∧
         log w' = log w ∧ dirs w' = dirs w) ∧
  (session_dir s ∉ dirs w → sqlite w !! db s = None →
   Storage.reset s w = Raise Storage.unable_to_open w).
Proof.
  split; [|apply reset_no_directory].
  intros Hdir. eexists. split; [by apply reset_eq|].
  unfold rows_of. cbn [sqlite set_sqlite].
  rewrite lookup_insert_eq. repeat split; try done.
  intros p Hp. by rewrite lookup_insert_ne.
Qed.

Lemma demo_directory : session_dir demo_session ∈ dirs demo_world.
Proof. cbn. by apply elem_of_singleton. Qed.

Lemma reset_initializes_empty_index_witness :
  (∃ w', Storage.reset demo_session demo_world = Return tt w' ∧
         rows_of demo_session w' = []) ∧
  (∃ w', Storage.reset demo_session
           (set_sqlite ∅ demo_world) = Return tt w' ∧
         sqlite w' !! db demo_session = Some (Some [])).
Proof.
  split.
  - destruct (proj1 (reset_initializes_empty_index demo_session demo_world))
      as (w' & Hrun & _ & Hrows & _).
    + cbn. by apply elem_of_singleton.
    + by exists w'.
  - destruct (proj1 (reset_initializes_empty_index demo_session
                       (set_sqlite ∅ demo_world)))
      as (w' & Hrun & Hdb & _).
    + cbn. by apply elem_of_singleton.
    + by exists w'.
Defined.

(** C9, refuted as stated: a session that was never initialized, directory
    included.  There is no index file, and [reset] does not succeed: the
    connection cannot create the database file. *)
Lemma reset_raises_without_session_directory :
  sqlite demo_world !! db (mkSession "/nowhere") = None ∧
  Storage.reset (mkSession "/nowhere") demo_world =
    Raise Storage.unable_to_open demo_world.
Proof. split; reflexivity. Qed.

(** ** DeletionQueue.load on a missing or malformed file *)

(** C5.  When the queue file of the session is missing, [load] raises
    [FileNotFoundError]; when it does not parse as JSON, [load] raises the
    decoder's error.  In neither case does it return a queue. *)
Theorem load_missing_or_malformed_raises (s : Session) (w : World) :
  docs w !! queue_file s = None ∨ docs w !! queue_file s = Some None →
  (∃ e, DeletionQueue.load s w = Raise e w ∧
        (e = FileNotFoundError (queue_file s) ∨ e = JSONDecodeError)) ∧
  (docs w !! queue_file s = None →
     DeletionQueue.load s w = Raise (FileNotFoundError (queue_file s)) w) ∧
  (docs w !! queue_file s = Some None →
     DeletionQueue.load s w = Raise JSONDecodeError w) ∧
  (∀ q w', DeletionQueue.load s w ≠ Return q w').
Proof.
  unfold DeletionQueue.load. intros [H|H]; rewrite H; repeat split;
    try done; eauto.
Qed.

Lemma load_missing_or_malformed_raises_witness :
  DeletionQueue.load (mkSession "/tmp/session")
      (mkWorld ∅ ∅ ∅ ∅ [] ∅) =
    Raise (FileNotFoundError "/tmp/session/deletion_queue.json")
      (mkWorld ∅ ∅ ∅ ∅ [] ∅) ∧
  DeletionQueue.load (mkSession "/tmp/session")
      (mkWorld ∅ ∅ ∅ {["/tmp/session/deletion_queue.json" := None]} [] ∅) =
    Raise JSONDecodeError
      (mkWorld ∅ ∅ ∅ {["/tmp/session/deletion_queue.json" := None]} [] ∅).
Proof.
  split.
  - apply (load_missing_or_malformed_raises (mkSession "/tmp/session")
             (mkWorld ∅ ∅ ∅ ∅ [] ∅)); [left|]; reflexivity.
  - apply (load_missing_or_malformed_raises (mkSession "/tmp/session")
             (mkWorld ∅ ∅ ∅ {["/tmp/session/deletion_queue.json" := None]} [] ∅));
      [right|]; reflexivity.
Defined.

(** ** Classification by extension *)

Lemma is_supported_true (f : string) :
  Storage._is_supported f = true ↔
  Py.lower (Storage.extension f) ∈ Storage.allow_list.
Proof. unfold Storage._is_supported. apply bool_decide_eq_true. Qed.

(** The text of names in ASCII has an encoding. *)
Lemma utf8_ascii (s : string) :
  Forall (λ c, Py.byte_in 0 127 c = true) (list_ascii_of_string s) →
  Py.utf8 s = true.
Proof.
  induction s as [|c s IH]; [done|]. cbn [list_ascii_of_string Py.utf8].
  intros [Hc Hs]%Forall_cons. rewrite Hc. by apply IH.
Qed.

Lemma lower_ascii_ascii (c : ascii) :
  Py.byte_in 0 127 (Py.lower_ascii c) = Py.byte_in 0 127 c.
Proof. by destruct c as [[] [] [] [] [] [] [] []]. Qed.

Lemma lower_ascii_text (s : string) :
  Forall (λ c, Py.byte_in 0 127 c = true) (list_ascii_of_string (Py.lower s)) →
  Forall (λ c, Py.byte_in 0 127 c = true) (list_ascii_of_string s).
Proof.
  induction s as [|c s IH]; [done|]. cbn [Py.lower list_ascii_of_string].
  intros [Hc Hs]%Forall_cons. rewrite lower_ascii_ascii in Hc.
  constructor; [done|by apply IH].
Qed.

Lemma allow_list_utf8 (f : string) :
  Py.lower f ∈ Storage.allow_list → Py.utf8 f = true.
Proof.
  intros Hin. apply utf8_ascii, lower_ascii_text. revert Hin.
  generalize (Py.lower f). intros x. unfold Storage.allow_list. intros Hin.
  repeat (apply elem_of_cons in Hin as [->|Hin];
          [by repeat constructor|]).
  by apply elem_of_nil in Hin.
Qed.

Lemma connect_existing (s : Session) (w : World) (rows : list Row) :
  sqlite w !! db s = Some (Some rows) → Storage._connect s w = Return tt w.
Proof. intros Hdb. unfold Storage._connect. by rewrite Hdb. Qed.

Lemma store_file_supported sha (s : Session) (f : string) (w : World)
    (data : list Byte.byte) (rows : list Row) :
  Storage._is_supported f = true →
  Py.utf8 f = true →
  disk w !! f = Some (Some data) →
  sqlite w !! db s = Some (Some rows) →
  Storage.store_file sha s f w =
    Return tt (set_sqlite (<[db s := Some (rows ++ [mkRow f (sha data)])]> (sqlite w)) w).
Proof.
  intros Hsup Henc Hdisk Hdb. unfold Storage.store_file. rewrite Hsup.
  cbn [negb]. unfold bind. rewrite (hash_file_readable _ _ _ _ Hdisk).
  rewrite (connect_existing _ _ _ Hdb).
  unfold Storage.insert_row, Storage.with_table. rewrite Hdb.
  unfold bind, Storage.bind_text. cbn [filename]. by rewrite Henc.
Qed.

(** A supported file with a name that has no encoding: hashed, and then
    refused by the [INSERT]. *)
Lemma store_file_not_utf8 sha (s : Session) (f : string) (w : World)
    (data : list Byte.byte) (rows : list Row) :
  Storage._is_supported f = true →
  Py.utf8 f = false →
  disk w !! f = Some (Some data) →
  sqlite w !! db s = Some (Some rows) →
  Storage.store_file sha s f w = Raise UnicodeEncodeError w.
Proof.
  intros Hsup Henc Hdisk Hdb. unfold Storage.store_file. rewrite Hsup.
  cbn [negb]. unfold bind. rewrite (hash_file_readable _ _ _ _ Hdisk).
  rewrite (connect_existing _ _ _ Hdb).
  unfold Storage.insert_row, Storage.with_table. rewrite Hdb.
  unfold bind, Storage.bind_text. cbn [filename]. by rewrite Henc.
Qed.

(** The name is the whole string handed over: inside a directory the same
    file is not supported, and [analyze_dir] hands over joined paths. *)
Lemma dotless_name_in_directory :
  Storage._is_supported "png" = true ∧
  Storage._is_supported (Py.path_join "/pics" "png") = false.
Proof. split; reflexivity. Qed.

(** C10.  On a file name without a dot the classification looks at the
    whole name passed to it, lowercased: the name is supported exactly when
    that is one of the allow-list.  So a file handed over as [png] (or
    [JPG], ...) is supported, and [store_file] hashes it and appends its
    row. *)
Theorem dotless_name_classified_as_a_whole sha (s : Session) (f : string) :
  Py.has_dot f = false →
  Storage.extension f = f ∧
  Storage._is_supported f = bool_decide (Py.lower f ∈ Storage.allow_list) ∧
  (Py.lower f ∈ Storage.allow_list →
   ∀ (w : World) data rows,
     disk w !! f = Some (Some data) →
     sqlite w !! db s = Some (Some rows) →
     Storage.store_file sha s f w =
       Return tt
         (set_sqlite (<[db s := Some (rows ++ [mkRow f (sha data)])]> (sqlite w)) w)).
Proof.
  intros Hdot. pose proof (extension_no_dot f Hdot) as Hext.
  split; [done|]. split.
  - unfold Storage._is_supported. by rewrite Hext.
  - intros Hin w data rows Hdisk Hdb.
    apply store_file_supported; [|by apply allow_list_utf8|done..].
    apply is_supported_true. by rewrite Hext.
Qed.

Lemma dotless_name_classified_as_a_whole_witness :
  Storage._is_supported "JPG" = true ∧
  Storage.store_file plain_digest demo_session "JPG" demo_world =
    Return tt
      (set_sqlite
         (<[db demo_session :=
              Some (demo_rows ++ [mkRow "JPG" (plain_digest [])])]>
            (sqlite demo_world)) demo_world).
Proof.
  destruct (dotless_name_classified_as_a_whole plain_digest demo_session
              "JPG" eq_refl) as (_ & Hsup & Hstore).
  split.
  - rewrite Hsup. reflexivity.
  - apply Hstore; [vm_compute; set_solver|reflexivity..].
Defined.

(** ** Storage.find_duplicates *)

Section FindDuplicates.

Context (s : Session) (w : World) (rows : list Row).
Hypothesis Htable : sqlite w !! db s = Some (Some rows).

Lemma find_all_with_hash_eq (h : string) :
  Storage._find_all_with_hash s h w =
    Return (Storage.select_filenames_with_hash h rows) w.
Proof.
  unfold Storage._find_all_with_hash, bind.
  rewrite (connect_existing _ _ _ Htable).
  unfold Storage.with_table. by rewrite Htable.
Qed.

Lemma collect_duplicates_eq (hs : list string) :
  Storage.collect_duplicates s hs w =
    Return ((λ h, mkDuplicate h (Storage.select_filenames_with_hash h rows)) <$> hs) w.
Proof.
  induction hs as [|h hs IH]; [done|].
  cbn [Storage.collect_duplicates]. unfold bind.
  by rewrite find_all_with_hash_eq, IH.
Qed.

Lemma find_duplicates_eq :
  Storage.find_duplicates s w = Return (groups rows) w.
Proof.
  unfold Storage.find_duplicates, bind.
  rewrite (connect_existing _ _ _ Htable).
  unfold Storage.with_table. rewrite Htable. cbn [ret].
  apply collect_duplicates_eq.
Qed.

End FindDuplicates.

Lemma groups_hashes (rows : list Row) :
  content_hash <$> groups rows = Storage.select_duplicate_hashes rows.
Proof.
  unfold groups. rewrite <- list_fmap_compose.
  induction (Storage.select_duplicate_hashes rows) as [|h hs IH]; [done|].
  cbn. by rewrite IH.
Qed.

Lemma count_hash_pos (h : string) (rows : list Row) :
  0 < Storage.count_hash h rows → h ∈ hash <$> rows.
Proof.
  unfold Storage.count_hash. intros Hpos.
  destruct (filter (λ r, hash r = h) rows) as [|r l] eqn:Heq; [simpl in Hpos; lia|].
  assert (r ∈ filter (λ r, hash r = h) rows) as Hin by (rewrite Heq; left).
  apply list_elem_of_filter in Hin as [<- Hin].
  by apply list_elem_of_fmap_2.
Qed.

Lemma select_duplicate_hashes_elem (h : string) (rows : list Row) :
  h ∈ Storage.select_duplicate_hashes rows ↔ 2 ≤ Storage.count_hash h rows.
Proof.
  unfold Storage.select_duplicate_hashes. rewrite list_elem_of_filter.
  rewrite merge_sort_Permutation, elem_of_remove_dups. split.
  - intros [? _]. lia.
  - intros Hc. split; [lia|]. apply count_hash_pos. lia.
Qed.

Lemma select_duplicate_hashes_NoDup (rows : list Row) :
  NoDup (Storage.select_duplicate_hashes rows).
Proof.
  unfold Storage.select_duplicate_hashes. apply NoDup_filter.
  rewrite merge_sort_Permutation. apply NoDup_remove_dups.
Qed.

Lemma select_filenames_perm (h : string) (rows : list Row) :
  Storage.select_filenames_with_hash h rows ≡ₚ recorded_with h rows.
Proof. apply merge_sort_Permutation. Qed.

Lemma select_filenames_sorted (h : string) (rows : list Row) :
  Sorted String.le (Storage.select_filenames_with_hash h rows).
Proof. apply (Sorted_merge_sort String.le). Qed.

Lemma select_filenames_length (h : string) (rows : list Row) :
  length (Storage.select_filenames_with_hash h rows) = Storage.count_hash h rows.
Proof.
  rewrite select_filenames_perm. unfold recorded_with, Storage.count_hash.
  by rewrite length_fmap.
Qed.

Lemma recorded_with_elem (p h : string) (rows : list Row) :
  p ∈ recorded_with h rows ↔ mkRow p h ∈ rows.
Proof.
  unfold recorded_with. rewrite list_elem_of_fmap. split.
  - intros ([p' h'] & -> & Hin). apply list_elem_of_filter in Hin as [Hh Hin].
    simpl in *. by subst.
  - intros Hin. exists (mkRow p h). split; [done|].
    by apply list_elem_of_filter.
Qed.

(** The result depends on the rows as a collection only, not on the order
    in which they were inserted. *)
Lemma sorted_perm_eq (l1 l2 : list string) :
  l1 ≡ₚ l2 → merge_sort String.le l1 = merge_sort String.le l2.
Proof.
  intros Hp. apply (Sorted_unique String.le).
  - apply (Sorted_merge_sort String.le).
  - apply (Sorted_merge_sort String.le).
  - by rewrite !merge_sort_Permutation.
Qed.

Lemma count_hash_perm (h : string) (rows1 rows2 : list Row) :
  rows1 ≡ₚ rows2 → Storage.count_hash h rows1 = Storage.count_hash h rows2.
Proof. unfold Storage.count_hash. by intros ->. Qed.

Lemma groups_perm (rows1 rows2 : list Row) :
  rows1 ≡ₚ rows2 → groups rows1 = groups rows2.
Proof.
  intros Hp. unfold groups.
  assert (Storage.select_duplicate_hashes rows1 =
          Storage.select_duplicate_hashes rows2) as ->.
  { unfold Storage.select_duplicate_hashes.
    rewrite (sorted_perm_eq (remove_dups (hash <$> rows1))
               (remove_dups (hash <$> rows2))).
    - apply list_filter_iff. intros h. by rewrite (count_hash_perm h _ _ Hp).
    - apply NoDup_Permutation; [apply NoDup_remove_dups..|].
      intros h. rewrite !elem_of_remove_dups. by rewrite Hp. }
  apply list_fmap_ext. intros _ h _. f_equal.
  unfold Storage.select_filenames_with_hash. apply sorted_perm_eq.
  by rewrite Hp.
Qed.

(** C6.  On an index holding [rows], [find_duplicates] returns one group
    per hash carried by at least two rows and no other group; the files of
    a group are the paths recorded with its hash, all of them and as often
    as recorded, in ascending byte order, so never fewer than two; and the
    same rows in any order of insertion give the same result. *)
Theorem find_duplicates_spec (s : Session) (w : World) (rows : list Row) :
  sqlite w !! db s = Some (Some rows) →
  ∃ ds, Storage.find_duplicates s w = Return ds w ∧
    (∀ h, h ∈ content_hash <$> ds ↔ 2 ≤ Storage.count_hash h rows) ∧
    NoDup (content_hash <$> ds) ∧
    (∀ d, d ∈ ds →
       files d ≡ₚ recorded_with (content_hash d) rows ∧
       (∀ p, p ∈ files d ↔ mkRow p (content_hash d) ∈ rows) ∧
       Sorted String.le (files d) ∧
       2 ≤ length (files d)) ∧
    (∀ w2 rows2,
       sqlite w2 !! db s = Some (Some rows2) → rows2 ≡ₚ rows →
       Storage.find_duplicates s w2 = Return ds w2).
Proof.
  intros Htable. exists (groups rows).
  split; [by apply find_duplicates_eq|].
  rewrite groups_hashes.
  split; [intros h; apply select_duplicate_hashes_elem|].
  split; [apply select_duplicate_hashes_NoDup|]. split.
  - intros d Hd. unfold groups in Hd.
    apply list_elem_of_fmap in Hd as (h & -> & Hh). cbn [files content_hash].
    split; [apply select_filenames_perm|]. split; [|split].
    + intros p. rewrite select_filenames_perm. apply recorded_with_elem.
    + apply select_filenames_sorted.
    + rewrite select_filenames_length. by apply select_duplicate_hashes_elem.
  - intros w2 rows2 Htable2 Hp.
    rewrite (find_duplicates_eq _ _ _ Htable2). by rewrite (groups_perm _ _ Hp).
Qed.

Lemma find_duplicates_spec_witness :
  ∃ ds, Storage.find_duplicates demo_session demo_world = Return ds demo_world ∧
        content_hash <$> ds = ["x"] ∧
        files <$> ds = [["/pics/a.jpg"; "/pics/b.jpg"]].
Proof.
  destruct (find_duplicates_spec demo_session demo_world demo_rows eq_refl)
    as (ds & Hrun & _).
  exists ds. split; [exact Hrun|].
  assert (Return ds demo_world =
          Return (groups demo_rows) demo_world) as Heq.
  { rewrite <- Hrun. reflexivity. }
  injection Heq as ->. split; reflexivity.
Defined.

(** ** DeletionQueue.add *)

Lemma wf_new (s : Session) : wf (DeletionQueue.new s).
Proof.
  split; cbn.
  - intros r Hr. by apply elem_of_nil in Hr.
  - intros h r. rewrite lookup_empty. split; [done|].
    intros [Hr _]. by apply elem_of_nil in Hr.
  - constructor.
Qed.

Lemma wf_lookup (q : DeletionQueue.t) (r : nat) :
  wf q → r ∈ DeletionQueue._queue q → is_Some (DeletionQueue.objs q !! r).
Proof. intros Hwf Hr. apply lookup_lt_is_Some. by apply wf_refs. Qed.

Lemma elem_of_entries (q : DeletionQueue.t) (e : DeletionEntry) :
  e ∈ DeletionQueue.entries q ↔
  ∃ r, r ∈ DeletionQueue._queue q ∧ DeletionQueue.objs q !! r = Some e.
Proof. apply list_elem_of_omap. Qed.

(** [_index] and the queued entries agree on which hashes are present. *)
Lemma index_hashes (q : DeletionQueue.t) (h : string) :
  wf q → (is_Some (DeletionQueue._index q !! h) ↔ h ∈ hashes q).
Proof.
  intros Hwf. unfold hashes. rewrite list_elem_of_fmap. split.
  - intros [r Hr]. apply (wf_index q Hwf) in Hr as [Hin Hat].
    unfold hash_at in Hat. destruct (DeletionQueue.objs q !! r) as [e|] eqn:He;
      [|done].
    exists e. split; [by injection Hat|]. apply elem_of_entries; eauto.
  - intros (e & -> & (r & Hin & He)%elem_of_entries).
    exists r. apply (wf_index q Hwf). split; [done|].
    unfold hash_at. by rewrite He.
Qed.

Lemma get_by_hash_spec (q : DeletionQueue.t) (h : string) (e : DeletionEntry) :
  wf q →
  DeletionQueue.get_by_hash h q = Some e ↔
  e ∈ DeletionQueue.entries q ∧ hash_of e = h.
Proof.
  intros Hwf. unfold DeletionQueue.get_by_hash, DeletionQueue.get_ref. split.
  - destruct (DeletionQueue._index q !! h) as [r|] eqn:Hr; [|done]. cbn.
    intros He. apply (wf_index q Hwf) in Hr as [Hin Hat].
    unfold hash_at in Hat. rewrite He in Hat. split; [|by injection Hat].
    apply elem_of_entries; eauto.
  - intros [(r & Hin & He)%elem_of_entries <-].
    assert (DeletionQueue._index q !! hash_of e = Some r) as ->; [|done].
    apply (wf_index q Hwf). split; [done|]. unfold hash_at. by rewrite He.
Qed.

Lemma entries_alter (q : DeletionQueue.t) (h keep : string) (r : nat) :
  wf q → DeletionQueue._index q !! h = Some r →
  omap (λ r', alter (set_to_keep keep) r (DeletionQueue.objs q) !! r')
       (DeletionQueue._queue q) =
  replace_to_keep h keep <$> DeletionQueue.entries q.
Proof.
  intros Hwf Hr. unfold DeletionQueue.entries. rewrite list_fmap_omap.
  apply list_omap_ext, Forall_Forall2_diag, Forall_forall. intros r' Hin.
  destruct (wf_lookup q r' Hwf Hin) as [e He].
  destruct (decide (r = r')) as [<-|Hne].
  - apply (wf_index q Hwf) in Hr as [_ Hat].
    rewrite list_lookup_alter_eq, He. cbn. unfold hash_at in Hat.
    rewrite He in Hat. injection Hat as Hat.
    unfold replace_to_keep. by rewrite decide_True.
  - rewrite list_lookup_alter_ne, He by done. cbn. unfold replace_to_keep.
    rewrite decide_False; [done|]. intros Hh.
    assert (DeletionQueue._index q !! h = Some r') as Hr'; [|congruence].
    apply (wf_index q Hwf). split; [done|]. unfold hash_at. rewrite He.
    cbn. by rewrite Hh.
Qed.

Lemma hash_of_replace (h keep : string) (e : DeletionEntry) :
  hash_of (replace_to_keep h keep e) = hash_of e.
Proof. unfold replace_to_keep. by case_decide. Qed.

Lemma hashes_replace (h keep : string) (es : list DeletionEntry) :
  hash_of <$> (replace_to_keep h keep <$> es) = hash_of <$> es.
Proof.
  rewrite <- list_fmap_compose. apply list_fmap_ext.
  intros _ e _. apply hash_of_replace.
Qed.

Lemma omap_lookup_snoc (objs : list DeletionEntry) (e : DeletionEntry)
    (rs : list nat) :
  (∀ r, r ∈ rs → r < length objs) →
  omap (λ r, (objs ++ [e]) !! r) rs = omap (λ r, objs !! r) rs.
Proof.
  intros Hrs. apply list_omap_ext, Forall_Forall2_diag, Forall_forall.
  intros r Hr. apply lookup_app_l. by apply Hrs.
Qed.

Lemma entries_add_new (q : DeletionQueue.t) (e : DeletionEntry) :
  refs_valid q →
  DeletionQueue.entries (DeletionQueue._add_new e q) =
    DeletionQueue.entries q ++ [e].
Proof.
  intros Hrefs. unfold DeletionQueue.entries, DeletionQueue._add_new. cbn.
  rewrite omap_app, omap_lookup_snoc by apply Hrefs. f_equal.
  cbn. by rewrite list_lookup_middle.
Qed.

Lemma add_existing (q : DeletionQueue.t) (d : Duplicate) (keep : string) :
  wf q → content_hash d ∈ hashes q →
  DeletionQueue.entries (DeletionQueue.add d keep q) =
    replace_to_keep (content_hash d) keep <$> DeletionQueue.entries q.
Proof.
  intros Hwf [r Hr]%index_hashes; [|done].
  unfold DeletionQueue.add, DeletionQueue.get_ref. rewrite Hr.
  exact (entries_alter q _ keep r Hwf Hr).
Qed.

Lemma add_fresh (q : DeletionQueue.t) (d : Duplicate) (keep : string) :
  wf q → content_hash d ∉ hashes q →
  DeletionQueue.entries (DeletionQueue.add d keep q) =
    DeletionQueue.entries q ++ [mkDeletionEntry d keep].
Proof.
  intros Hwf Hno. unfold DeletionQueue.add, DeletionQueue.get_ref.
  destruct (DeletionQueue._index q !! content_hash d) as [r|] eqn:Hr.
  - destruct Hno. apply index_hashes; eauto.
  - apply entries_add_new, Hwf.
Qed.

Lemma wf_add_new (q : DeletionQueue.t) (e : DeletionEntry) :
  wf q → hash_of e ∉ hashes q → wf (DeletionQueue._add_new e q).
Proof.
  intros Hwf Hno.
  assert (∀ r, r ∈ DeletionQueue._queue q →
               hash_at (DeletionQueue._add_new e q) r = hash_at q r) as Hold.
  { intros r Hr. unfold hash_at, DeletionQueue._add_new. cbn.
    rewrite lookup_app_l; [done|]. by apply Hwf. }
  assert (hash_at (DeletionQueue._add_new e q)
            (length (DeletionQueue.objs q)) = Some (hash_of e)) as Hnew.
  { unfold hash_at, DeletionQueue._add_new. cbn.
    by rewrite list_lookup_middle. }
  split.
  - intros r. cbn. rewrite elem_of_app, list_elem_of_singleton, length_app.
    intros [Hr| ->]; [apply (wf_refs q Hwf) in Hr|]; cbn; lia.
  - intros h r. cbn [DeletionQueue._index DeletionQueue._queue DeletionQueue._add_new].
    rewrite elem_of_app, list_elem_of_singleton.
    destruct (decide (hash_of e = h)) as [<-|Hne].
    + fold (hash_of e). rewrite lookup_insert_eq. split.
      * intros [= <-]. split; [by right|done].
      * intros [[Hr| ->] Hat]; [|done].
        rewrite Hold in Hat by done. destruct Hno.
        apply index_hashes; [done|]. exists r. apply (wf_index q Hwf). done.
    + fold (hash_of e). rewrite lookup_insert_ne by done.
      rewrite (wf_index q Hwf). split.
      * intros [Hr Hat]. split; [by left|]. by rewrite Hold.
      * intros [[Hr| ->] Hat].
        -- split; [done|]. by rewrite <- Hold.
        -- rewrite Hnew in Hat. congruence.
  - unfold hashes. rewrite entries_add_new by apply Hwf. rewrite fmap_app.
    apply NoDup_app. split; [apply Hwf|]. split.
    + intros h Hh [->|[]%elem_of_nil]%elem_of_cons. done.
    + cbn. apply NoDup_singleton.
Qed.

Lemma wf_add (q : DeletionQueue.t) (d : Duplicate) (keep : string) :
  wf q → wf (DeletionQueue.add d keep q).
Proof.
  intros Hwf.
  destruct (decide (content_hash d ∈ hashes q)) as [Hin|Hno].
  - pose proof (add_existing q d keep Hwf Hin) as Hent.
    apply index_hashes in Hin as [r Hr]; [|done].
    revert Hent. unfold DeletionQueue.add, DeletionQueue.get_ref.
    rewrite Hr. intros Hent.
    assert (∀ r', hash_at (DeletionQueue.mk (DeletionQueue._session q)
                     (alter (set_to_keep keep) r (DeletionQueue.objs q))
                     (DeletionQueue._queue q) (DeletionQueue._index q)) r'
                  = hash_at q r') as Hat.
    { intros r'. unfold hash_at. cbn. rewrite list_lookup_alter.
      case_decide as Hrr; [subst r'|done].
      by destruct (DeletionQueue.objs q !! r). }
    split.
    + intros r'. cbn. rewrite length_alter. apply Hwf.
    + intros h r'. rewrite Hat. cbn. apply Hwf.
    + unfold hashes. rewrite Hent, hashes_replace. apply Hwf.
  - unfold DeletionQueue.add, DeletionQueue.get_ref.
    destruct (DeletionQueue._index q !! content_hash d) as [r|] eqn:Hr.
    + destruct Hno. apply index_hashes; eauto.
    + by apply wf_add_new.
Qed.

(** Calling [add] again with the same arguments changes nothing. *)
Lemma add_idempotent (q : DeletionQueue.t) (d : Duplicate) (keep : string) :
  DeletionQueue.add d keep (DeletionQueue.add d keep q) =
  DeletionQueue.add d keep q.
Proof.
  destruct (DeletionQueue._index q !! content_hash d) as [r|] eqn:Hr.
  - unfold DeletionQueue.add, DeletionQueue.get_ref. rewrite Hr. cbn.
    rewrite Hr. f_equal. rewrite list_alter_alter_eq. by apply list_alter_ext.
  - unfold DeletionQueue.add, DeletionQueue.get_ref, DeletionQueue._add_new.
    rewrite Hr. cbn. rewrite lookup_insert_eq. f_equal.
    pose proof (alter_app_r (set_to_keep keep) (DeletionQueue.objs q)
                  [mkDeletionEntry d keep] 0) as Halter.
    rewrite Nat.add_0_r in Halter. exact Halter.
Qed.

Lemma hashes_add (q : DeletionQueue.t) (d : Duplicate) (keep : string) :
  wf q →
  hashes (DeletionQueue.add d keep q) =
    if decide (content_hash d ∈ hashes q) then hashes q
    else hashes q ++ [content_hash d].
Proof.
  intros Hwf. unfold hashes at 1. case_decide as Hin.
  - by rewrite add_existing, hashes_replace.
  - by rewrite add_fresh, fmap_app.
Qed.

Lemma replace_at (es : list DeletionEntry) (h keep : string) (i : nat)
    (e : DeletionEntry) :
  NoDup (hash_of <$> es) → es !! i = Some e → hash_of e = h →
  replace_to_keep h keep <$> es = <[i := set_to_keep keep e]> es.
Proof.
  intros Hnd Hi Hh. apply list_eq. intros j.
  rewrite list_lookup_fmap.
  destruct (decide (i = j)) as [<-|Hne].
  - rewrite list_lookup_insert_eq by (by eapply lookup_lt_Some).
    rewrite Hi. cbn. unfold replace_to_keep. by rewrite decide_True.
  - rewrite list_lookup_insert_ne by done.
    destruct (es !! j) as [e'|] eqn:Hj; [|done]. cbn.
    unfold replace_to_keep. rewrite decide_False; [done|].
    intros Hh'. apply Hne.
    apply (NoDup_lookup _ i j (hash_of e) Hnd).
    + by rewrite list_lookup_fmap, Hi.
    + rewrite list_lookup_fmap, Hj. cbn. congruence.
Qed.

Lemma get_by_hash_None (q : DeletionQueue.t) (h : string) :
  wf q → DeletionQueue.get_by_hash h q = None → h ∉ hashes q.
Proof.
  intros Hwf Hnone Hin. unfold hashes in Hin.
  apply list_elem_of_fmap in Hin as (e & -> & He).
  assert (DeletionQueue.get_by_hash (hash_of e) q = Some e) as Hsome
    by by apply get_by_hash_spec.
  congruence.
Qed.

Lemma wf_adds (calls : list (Duplicate * string)) (q : DeletionQueue.t) :
  wf q → wf (adds calls q).
Proof.
  revert q. induction calls as [|[d keep] calls IH]; intros q Hwf; [done|].
  cbn. apply IH. by apply wf_add.
Qed.

Lemma adds_hashes (calls : list (Duplicate * string)) (q : DeletionQueue.t)
    (h : string) :
  wf q → h ∈ hashes (adds calls q) →
  h ∈ hashes q ∨ h ∈ (λ c, content_hash c.1) <$> calls.
Proof.
  revert q. induction calls as [|[d keep] calls IH]; intros q Hwf Hin;
    [by left|].
  cbn in Hin. apply IH in Hin; [|by apply wf_add].
  rewrite fmap_cons, elem_of_cons. cbn.
  destruct Hin as [Hin|Hin]; [|by right; right].
  rewrite hashes_add in Hin by done. case_decide; [by left|].
  apply elem_of_app in Hin as [Hin|Hin%list_elem_of_singleton]; [by left|].
  right; by left.
Qed.

(** C3.  Start from an empty queue and make any sequence of [add] calls.
    The queue then holds no two entries with the same hash, and no more
    entries than the calls had distinct hashes.  One more [add] for a hash
    that has an entry leaves every entry where it is and changes only the
    [to_keep] of that one; for a hash that has none it appends the new
    entry at the end.  Repeating the same [add] changes nothing. *)
Theorem add_keeps_one_entry_per_hash (s : Session)
    (calls : list (Duplicate * string)) (d : Duplicate) (keep : string) :
  let q := adds calls (DeletionQueue.new s) in
  NoDup (hashes q) ∧
  length (DeletionQueue.entries q) ≤
    length (remove_dups ((λ c, content_hash c.1) <$> calls)) ∧
  (∀ e, DeletionQueue.get_by_hash (content_hash d) q = Some e →
        ∃ i, DeletionQueue.entries q !! i = Some e ∧
             DeletionQueue.entries (DeletionQueue.add d keep q) =
               <[i := set_to_keep keep e]> (DeletionQueue.entries q)) ∧
  (DeletionQueue.get_by_hash (content_hash d) q = None →
     DeletionQueue.entries (DeletionQueue.add d keep q) =
       DeletionQueue.entries q ++ [mkDeletionEntry d keep]) ∧
  DeletionQueue.add d keep (DeletionQueue.add d keep q) =
    DeletionQueue.add d keep q.
Proof.
  intros q.
  assert (wf q) as Hwf by apply wf_adds, wf_new.
  split; [apply Hwf|]. split; [|split; [|split]].
  - replace (length (DeletionQueue.entries q)) with (length (hashes q))
      by (unfold hashes; by rewrite length_fmap).
    apply submseteq_length, NoDup_submseteq; [apply Hwf|].
    intros h Hh. apply elem_of_remove_dups.
    apply adds_hashes in Hh as [Hh|Hh]; [|done|apply wf_new].
    by apply elem_of_nil in Hh.
  - intros e He. apply get_by_hash_spec in He as [Hin Hh]; [|done].
    apply list_elem_of_lookup in Hin as [i Hi]. exists i. split; [done|].
    rewrite add_existing.
    + apply replace_at; [apply Hwf|done..].
    + done.
    + unfold hashes. rewrite <- Hh. by apply list_elem_of_fmap_2, list_elem_of_lookup_2 with i.
  - intros Hnone. apply add_fresh; [done|]. by apply get_by_hash_None.
  - apply add_idempotent.
Qed.

Lemma add_keeps_one_entry_per_hash_witness :
  DeletionQueue.entries
    (DeletionQueue.add (mkDuplicate "x" ["/pics/a.jpg"; "/pics/b.jpg"])
       "/pics/b.jpg"
       (adds [(mkDuplicate "x" ["/pics/a.jpg"; "/pics/b.jpg"], "/pics/a.jpg")]
          (DeletionQueue.new demo_session))) =
  [mkDeletionEntry (mkDuplicate "x" ["/pics/a.jpg"; "/pics/b.jpg"]) "/pics/b.jpg"].
Proof.
  destruct (add_keeps_one_entry_per_hash demo_session
              [(mkDuplicate "x" ["/pics/a.jpg"; "/pics/b.jpg"], "/pics/a.jpg")]
              (mkDuplicate "x" ["/pics/a.jpg"; "/pics/b.jpg"]) "/pics/b.jpg")
    as (_ & _ & Hexists & _ & _).
  destruct (Hexists _ eq_refl) as (i & Hi & Heq).
  destruct i as [|i]; [exact Heq|discriminate Hi].
Defined.

(** ** persist and load *)

Lemma as_string_strings (fs : list string) :
  mapM as_string (JString <$> fs) = Some fs.
Proof.
  induction fs as [|f fs IH]; [done|].
  cbn. rewrite IH. done.
Qed.

(** Settles the comparisons of member names met while looking one up. *)
Ltac compare_keys :=
  repeat first [ rewrite bool_decide_eq_true_2 by done
               | rewrite bool_decide_eq_false_2 by done ];
  cbn [mbind decoded_bind decode_str decode_str_list decode_Duplicate].

Lemma Duplicate_from_dict_to_dict (d : Duplicate) :
  Duplicate_from_dict (Duplicate_to_dict d) = Decoded d.
Proof.
  destruct d as [h fs].
  unfold Duplicate_from_dict, Duplicate_to_dict, field, member.
  cbn [content_hash files]. compare_keys.
  by rewrite as_string_strings.
Qed.

Lemma from_dict_to_dict (e : DeletionEntry) :
  DeletionEntry_from_dict (DeletionEntry_to_dict e) = Decoded e.
Proof.
  destruct e as [d k].
  unfold DeletionEntry_from_dict, DeletionEntry_to_dict, field, member.
  cbn [duplicate to_keep]. compare_keys.
  change (decode_Duplicate (Duplicate_to_dict d))
    with (Duplicate_from_dict (Duplicate_to_dict d)).
  by rewrite Duplicate_from_dict_to_dict.
Qed.

Lemma load_entries_to_dict (es : list DeletionEntry) (q : DeletionQueue.t) :
  DeletionQueue.load_entries (DeletionEntry_to_dict <$> es) q =
    Decoded (foldl (λ q e, DeletionQueue._add_new e q) q es).
Proof.
  revert q. induction es as [|e es IH]; intros q; [done|].
  cbn [fmap list_fmap DeletionQueue.load_entries foldl].
  rewrite from_dict_to_dict. apply IH.
Qed.

Lemma refs_valid_add_new (q : DeletionQueue.t) (e : DeletionEntry) :
  refs_valid q → refs_valid (DeletionQueue._add_new e q).
Proof.
  intros Hrefs r. cbn. rewrite elem_of_app, list_elem_of_singleton, length_app.
  intros [Hr| ->]; [apply Hrefs in Hr|]; cbn; lia.
Qed.

Lemma entries_add_all (es : list DeletionEntry) (q : DeletionQueue.t) :
  refs_valid q →
  DeletionQueue.entries (foldl (λ q e, DeletionQueue._add_new e q) q es) =
    DeletionQueue.entries q ++ es.
Proof.
  revert q. induction es as [|e es IH]; intros q Hrefs; cbn.
  - by rewrite app_nil_r.
  - rewrite IH by by apply refs_valid_add_new.
    rewrite entries_add_new by done. by rewrite <- app_assoc.
Qed.



(** ** Loops *)

Lemma for_each_app {S A} (xs ys : list A) (body : A → M S unit) (st : S) :
  for_each (xs ++ ys) body st = (for_each xs body ;; for_each ys body) st.
Proof.
  revert st. induction xs as [|x xs IH]; intros st; [done|].
  cbn. unfold bind. destruct (body x st) as [[] st'|e st'|st']; [|done..].
  apply IH.
Qed.

Lemma for_each_fmap {S A B} (f : A → B) (xs : list A) (body : B → M S unit)
    (st : S) :
  for_each (f <$> xs) body st = for_each xs (λ x, body (f x)) st.
Proof.
  revert st. induction xs as [|x xs IH]; intros st; [done|].
  cbn. unfold bind. destruct (body (f x) st); [apply IH|done..].
Qed.

(** What every step of a loop preserves holds when the loop is left,
    normally or by an exception; and so for two steps in sequence. *)
Lemma for_each_inv {S A} (P : S → Prop) (xs : list A) (body : A → M S unit) :
  (∀ x st, P st → P (state_of (body x st))) →
  ∀ st, P st → P (state_of (for_each xs body st)).
Proof.
  intros Hbody. induction xs as [|x xs IH]; intros st Hst; [done|].
  cbn. unfold bind. specialize (Hbody x st Hst).
  destruct (body x st) as [[] st'|e st'|st']; [by apply IH|done..].
Qed.

Lemma bind_inv {S A B} (P : S → Prop) (c : M S A) (k : A → M S B) (s : S) :
  P (state_of (c s)) → (∀ a s', P s' → P (state_of (k a s'))) →
  P (state_of (bind c k s)).
Proof.
  intros Hc Hk. unfold bind. destruct (c s) as [a s'|e s'|s']; [|done..].
  by apply Hk.
Qed.

(** ** The sweep *)

Section SweepFacts.

Variable sha : list Byte.byte → string.
Variable os_walk : string → list (string * list string * list string).

Lemma sweep_flatten (top : string) (st : App.state) :
  for_each (os_walk top) (App.visit sha) st =
  for_each (walked_paths os_walk top) (App.process sha) st.
Proof.
  unfold walked_paths. revert st.
  induction (os_walk top) as [|[[root dirs] fs] l IH]; intros st; [done|].
  cbn [mbind list_bind for_each]. rewrite for_each_app. unfold bind.
  cbn [App.visit fst snd]. rewrite for_each_fmap.
  destruct (for_each fs _ st) as [[] st'|e st'|st']; [apply IH|done..].
Qed.

Lemma process_unsupported (p : string) (st : App.state) :
  Storage._is_supported p = false →
  App.process sha p st =
    Return tt (st.1, LOGGER (info_skipping p) (LOGGER (info_processing p) st.2)).
Proof.
  intros Hp. unfold App.process, bind, App.in_world, App.self, gets, modify.
  cbn. unfold Storage.store_file. by rewrite Hp.
Qed.

Lemma process_readable (p : string) (st : App.state) (rows : list Row)
    (data : list Byte.byte) :
  Storage._is_supported p = true →
  Py.utf8 p = true →
  disk st.2 !! p = Some (Some data) →
  index_holds st rows →
  ∃ st', App.process sha p st = Return tt st' ∧
         st'.1 = st.1 ∧ disk st'.2 = disk st.2 ∧
         log st'.2 = log st.2 ++ [info_processing p] ∧
         index_holds st' (rows ++ [mkRow p (sha data)]).
Proof.
  intros Hp Henc Hdisk Hrows. unfold App.process, bind, App.in_world, App.self,
    gets, modify. cbn.
  erewrite store_file_supported; [|done|done|exact Hdisk|exact Hrows].
  eexists. split; [done|]. repeat split. unfold index_holds. cbn.
  by rewrite lookup_insert_eq.
Qed.

Lemma process_unreadable (p : string) (st : App.state) :
  Storage._is_supported p = true →
  ¬ readable (disk st.2) p →
  ∃ e, App.process sha p st = Raise e (st.1, LOGGER (info_processing p) st.2) ∧
       (e = FileNotFoundError p ∨ e = PermissionError p).
Proof.
  intros Hp Hbad. unfold App.process, bind, App.in_world, App.self,
    gets, modify. cbn. unfold Storage.store_file. rewrite Hp. cbn [negb].
  unfold bind, Storage._hash_file. cbn [disk LOGGER].
  destruct (disk st.2 !! p) as [[data|]|] eqn:Hdisk.
  - destruct Hbad. by exists data.
  - eexists. split; [done|]. by right.
  - eexists. split; [done|]. by left.
Qed.

Lemma process_not_utf8 (p : string) (st : App.state) (rows : list Row) :
  Storage._is_supported p = true →
  readable (disk st.2) p →
  Py.utf8 p = false →
  index_holds st rows →
  App.process sha p st =
    Raise UnicodeEncodeError (st.1, LOGGER (info_processing p) st.2).
Proof.
  intros Hp [data Hdisk] Henc Hrows.
  unfold App.process, bind, App.in_world, App.self, gets, modify. cbn.
  by erewrite store_file_not_utf8; [|done|done|exact Hdisk|exact Hrows].
Qed.

Lemma records_cons (files : gmap string (option (list Byte.byte)))
    (p : string) (ps : list string) :
  records sha files (p :: ps) =
    match record_of sha files p with
    | Some r => r :: records sha files ps
    | None => records sha files ps
    end.
Proof. done. Qed.

Lemma sweep_log_cons (p : string) (ps : list string) :
  sweep_log (p :: ps) =
    (if Storage._is_supported p then [info_processing p]
     else [info_processing p; info_skipping p]) ++ sweep_log ps.
Proof. done. Qed.

(** A sweep over paths that are all passable gets to the end and adds the
    rows of the supported ones, in order. *)
Lemma sweep_passable (ps : list string) (st : App.state) (rows : list Row) :
  index_holds st rows →
  Forall (passable (disk st.2)) ps →
  ∃ st', for_each ps (App.process sha) st = Return tt st' ∧
         st'.1 = st.1 ∧ disk st'.2 = disk st.2 ∧
         log st'.2 = log st.2 ++ sweep_log ps ∧
         index_holds st' (rows ++ records sha (disk st.2) ps).
Proof.
  revert st rows. induction ps as [|p ps IH]; intros st rows Hrows Hps.
  - exists st. by rewrite !app_nil_r.
  - apply Forall_cons in Hps as [Hp Hps]. cbn [for_each]. unfold bind.
    rewrite records_cons, sweep_log_cons. unfold record_of.
    destruct (Storage._is_supported p) eqn:Hsup.
    + destruct (Hp Hsup) as [[data Hdata] Henc]. rewrite Hdata.
      destruct (process_readable p st rows data Hsup Henc Hdata Hrows)
        as (st1 & -> & Happ & Hdisk & Hlog & Hrows1).
      destruct (IH st1 _ Hrows1)
        as (st' & Hrun & Happ' & Hdisk' & Hlog' & Hrows').
      { by rewrite Hdisk. }
      exists st'. rewrite Hdisk, <- app_assoc in Hrows'.
      rewrite Hlog, <- app_assoc in Hlog'.
      repeat split; [done|congruence..|done|done].
    + rewrite (process_unsupported p st Hsup).
      destruct (IH (st.1, LOGGER (info_skipping p)
                           (LOGGER (info_processing p) st.2)) rows)
        as (st' & Hrun & Happ' & Hdisk' & Hlog' & Hrows'); [done..|].
      exists st'. cbn [fst snd LOGGER log] in Hlog'.
      rewrite <- !app_assoc in Hlog'. by repeat split.
Qed.

(** A sweep that meets a supported file it cannot read, or cannot record,
    is left there by the exception, with the rows of the paths before it
    and with no more in the log than that it began with the file. *)
Lemma sweep_stuck (pre post : list string) (bad : string)
    (st : App.state) (rows : list Row) :
  index_holds st rows →
  Forall (passable (disk st.2)) pre →
  Storage._is_supported bad = true →
  ¬ (readable (disk st.2) bad ∧ Py.utf8 bad = true) →
  ∃ e st', for_each (pre ++ bad :: post) (App.process sha) st = Raise e st' ∧
           (¬ readable (disk st.2) bad →
            e = FileNotFoundError bad ∨ e = PermissionError bad) ∧
           (readable (disk st.2) bad → e = UnicodeEncodeError) ∧
           st'.1 = st.1 ∧ disk st'.2 = disk st.2 ∧
           log st'.2 = log st.2 ++ sweep_log pre ++ [info_processing bad] ∧
           index_holds st' (rows ++ records sha (disk st.2) pre).
Proof.
  intros Hrows Hpre Hsup Hbad. rewrite for_each_app. unfold bind.
  destruct (sweep_passable pre st rows Hrows Hpre)
    as (st1 & -> & Happ & Hdisk & Hlog & Hrows1).
  cbn [for_each]. unfold bind.
  assert (readable (disk st.2) bad ∨ ¬ readable (disk st.2) bad)
    as [Hread|Hread].
  { unfold readable. destruct (disk st.2 !! bad) as [[data|]|];
      [left; by exists data|right; by intros [? ?]..]. }
  - assert (Py.utf8 bad = false) as Henc.
    { destruct (Py.utf8 bad); [|done]. by destruct Hbad. }
    rewrite (process_not_utf8 bad st1 _ Hsup) by (by rewrite ?Hdisk).
    eexists _, _. split; [done|]. cbn [fst snd LOGGER log disk].
    rewrite Hlog, <- app_assoc. by repeat split.
  - destruct (process_unreadable bad st1 Hsup) as (e & -> & He).
    { by rewrite Hdisk. }
    exists e, (st1.1, LOGGER (info_processing bad) st1.2).
    cbn [fst snd LOGGER log disk]. rewrite Hlog, <- app_assoc.
    by repeat split.
Qed.

End SweepFacts.

(** ** analyze_dir *)

Section AnalyzeFacts.

Variable sha : list Byte.byte → string.
Variable os_walk : string → list (string * list string * list string).

Lemma analyze_dir_unfold (top : string) (st : App.state) :
  session_dir (App._session st.1) ∈ dirs st.2 →
  App.analyze_dir sha os_walk top st =
    (for_each (walked_paths os_walk top) (App.process sha) ;;
     App.in_world (modify (LOGGER info_done))) (swept_from st).
Proof.
  intros Hdir. unfold App.analyze_dir. unfold bind at 1 2 3.
  unfold App.self, gets, App.in_world. cbn [fst snd].
  rewrite reset_eq by done.
  unfold App.clear_deletion_queue, bind at 1 2, App.self, gets, App.set_queue,
    modify. cbn [fst snd]. fold (swept_from st).
  unfold bind. by rewrite sweep_flatten.
Qed.

(** Without the directory of the session, a first sweep does not begin. *)
Lemma analyze_dir_no_directory (top : string) (st : App.state) :
  session_dir (App._session st.1) ∉ dirs st.2 →
  sqlite st.2 !! db (App._session st.1) = None →
  App.analyze_dir sha os_walk top st = Raise Storage.unable_to_open st.
Proof.
  intros Hdir Hno. unfold App.analyze_dir. unfold bind at 1 2.
  unfold App.self, gets, App.in_world. cbn [fst snd].
  rewrite reset_no_directory by done. by destruct st.
Qed.

Lemma swept_from_index (st : App.state) : index_holds (swept_from st) [].
Proof. unfold index_holds, swept_from. cbn. by rewrite lookup_insert_eq. Qed.

(** C2 (as the code has it).  [analyze_dir] has no handler around
    [store_file].  In a session directory that exists: when every supported
    file of the walk can be read and has a name that SQLite takes, it
    returns with the rows of exactly those files in the index.  At the
    first supported file that cannot be read, the error of [open] leaves
    [analyze_dir], and at the first one whose name has no UTF-8 encoding
    the error of the [INSERT]: the index holds the rows of the files walked
    before it and of none after it, and the last line of the log is the
    one that announced the file; nothing is logged about the failure. *)
Theorem analyze_dir_stops_at_first_unreadable (top : string) (st : App.state) :
  session_dir (App._session st.1) ∈ dirs st.2 →
  (Forall (passable (disk st.2)) (walked_paths os_walk top) →
   ∃ st', App.analyze_dir sha os_walk top st = Return tt st' ∧
          index_holds st'
            (records sha (disk st.2) (walked_paths os_walk top)) ∧
          log st'.2 =
            log st.2 ++ sweep_log (walked_paths os_walk top) ++ [info_done]) ∧
  (∀ pre bad post,
     walked_paths os_walk top = pre ++ bad :: post →
     Forall (passable (disk st.2)) pre →
     Storage._is_supported bad = true →
     ¬ (readable (disk st.2) bad ∧ Py.utf8 bad = true) →
     ∃ e st', App.analyze_dir sha os_walk top st = Raise e st' ∧
              (¬ readable (disk st.2) bad →
               e = FileNotFoundError bad ∨ e = PermissionError bad) ∧
              (readable (disk st.2) bad → e = UnicodeEncodeError) ∧
              index_holds st' (records sha (disk st.2) pre) ∧
              log st'.2 =
                log st.2 ++ sweep_log pre ++ [info_processing bad]).
Proof.
  intros Hdir. split.
  - intros Hall. rewrite analyze_dir_unfold by done. unfold bind.
    destruct (sweep_passable sha (walked_paths os_walk top) (swept_from st) []
                (swept_from_index st) Hall)
      as (st1 & -> & Happ & Hdisk & Hlog & Hrows).
    eexists. split; [done|]. split.
    + unfold index_holds in *. cbn in *. done.
    + cbn [snd LOGGER log]. rewrite Hlog. cbn [swept_from snd set_sqlite log].
      by rewrite <- app_assoc.
  - intros pre bad post Hsplit Hpre Hsup Hbad.
    rewrite analyze_dir_unfold by done.
    unfold bind. rewrite Hsplit.
    destruct (sweep_stuck sha pre post bad (swept_from st) []
                (swept_from_index st) Hpre Hsup Hbad)
      as (e & st1 & -> & He1 & He2 & Happ & Hdisk & Hlog & Hrows).
    exists e, st1. by repeat split.
Qed.

End AnalyzeFacts.

Lemma analyze_dir_stops_at_first_unreadable_witness :
  ∃ e st',
    App.analyze_dir plain_digest demo_walk "/pics"
      (App.new demo_session, demo_world) = Raise e st' ∧
    (e = FileNotFoundError "/pics/d.png" ∨ e = PermissionError "/pics/d.png") ∧
    index_holds st'
      (records plain_digest (disk demo_world) ["/pics/a.jpg"; "/pics/c.txt"]) ∧
    log st'.2 =
      log demo_world ++ sweep_log ["/pics/a.jpg"; "/pics/c.txt"] ++
      [info_processing "/pics/d.png"].
Proof.
  assert (¬ readable (disk demo_world) "/pics/d.png") as Hbad.
  { intros [data Hdata]. discriminate Hdata. }
  destruct (proj2 (analyze_dir_stops_at_first_unreadable plain_digest demo_walk
                     "/pics" (App.new demo_session, demo_world) demo_directory)
              ["/pics/a.jpg"; "/pics/c.txt"] "/pics/d.png"
              ["/pics/b.jpg"; "/pics/e.gif"])
    as (e & st' & Hrun & He & _ & Hrows & Hlog).
  - reflexivity.
  - apply Forall_cons. split.
    { intros _. split; [by exists [Byte.x78]|reflexivity]. }
    apply Forall_cons. split; [|by apply Forall_nil].
    intros Hsup. discriminate Hsup.
  - reflexivity.
  - intros [Hread _]. by apply Hbad.
  - exists e, st'. split; [done|]. split; [by apply He|]. by split.
Defined.

(** C2, refuted as stated: a picture that cannot be read stops the sweep.
    [/pics/b.jpg] is supported, readable and comes later in the walk, and
    is not in the index when [analyze_dir] is left by [PermissionError];
    the log ends with the line that announced the unreadable file. *)
Lemma analyze_dir_aborts_on_unreadable_file :
  ∃ st',
    App.analyze_dir plain_digest demo_walk "/pics"
      (App.new demo_session, demo_world) =
      Raise (PermissionError "/pics/d.png") st' ∧
    rows_of demo_session st'.2 = [mkRow "/pics/a.jpg" "x"] ∧
    log st'.2 = [info_processing "/pics/a.jpg"; info_processing "/pics/c.txt";
                 info_skipping "/pics/c.txt"; info_processing "/pics/d.png"] ∧
    "/pics/b.jpg" ∈ walked_paths demo_walk "/pics" ∧
    Storage._is_supported "/pics/b.jpg" = true ∧
    readable (disk demo_world) "/pics/b.jpg".
Proof.
  eexists. split; [vm_compute; reflexivity|].
  split; [reflexivity|]. split; [reflexivity|].
  split; [vm_compute; set_solver|]. split; [reflexivity|].
  by exists [Byte.x78].
Qed.

(** ** Unsupported files *)

Lemma rows_of_LOGGER (s : Session) (r : LogRecord) (w : World) :
  rows_of s (LOGGER r w) = rows_of s w.
Proof. done. Qed.

(** Whatever [store_file] does to the index is to append a row for the
    path it was given, and that only when the path is supported. *)
Lemma store_file_rows sha (s : Session) (g : string) (w : World) :
  rows_of s (state_of (Storage.store_file sha s g w)) = rows_of s w ∨
  (Storage._is_supported g = true ∧
   ∃ h, rows_of s (state_of (Storage.store_file sha s g w)) =
          rows_of s w ++ [mkRow g h]).
Proof.
  unfold Storage.store_file. destruct (Storage._is_supported g) eqn:Hsup;
    cbn [negb]; [|by left].
  unfold bind, Storage._hash_file.
  destruct (disk w !! g) as [[data|]|]; [|by left..].
  unfold Storage._connect, Storage.insert_row, Storage.with_table.
  destruct (sqlite w !! db s) as [[rows|]|] eqn:Hdb.
  - rewrite Hdb. unfold bind, Storage.bind_text. cbn [filename].
    destruct (Py.utf8 g); [|by left].
    right. split; [done|]. eexists. unfold rows_of.
    cbn. by rewrite lookup_insert_eq, Hdb.
  - rewrite Hdb. by left.
  - case_bool_decide; [|by left].
    cbn [sqlite set_sqlite]. rewrite lookup_insert_eq. left.
    unfold rows_of. cbn. by rewrite lookup_insert_eq, Hdb.
Qed.

Lemma find_duplicates_inv (s : Session) (w w' : World) (ds : list Duplicate) :
  Storage.find_duplicates s w = Return ds w' →
  ds = groups (rows_of s w) ∧ w' = w.
Proof.
  destruct (sqlite w !! db s) as [[rows|]|] eqn:Hdb.
  - rewrite (find_duplicates_eq s w rows Hdb). unfold rows_of. rewrite Hdb.
    by intros [= <- <-].
  - unfold Storage.find_duplicates, bind, Storage._connect,
      Storage.with_table. by rewrite Hdb, Hdb.
  - unfold Storage.find_duplicates, bind, Storage._connect,
      Storage.with_table. rewrite Hdb. case_bool_decide; [|done].
    cbn [sqlite set_sqlite]. by rewrite lookup_insert_eq.
Qed.

Lemma groups_files (rows : list Row) (d : Duplicate) (p : string) :
  d ∈ groups rows → p ∈ files d → p ∈ filename <$> rows.
Proof.
  unfold groups. intros (h & -> & _)%list_elem_of_fmap. cbn.
  rewrite select_filenames_perm, recorded_with_elem.
  intros Hin. by apply (list_elem_of_fmap_2 filename) in Hin.
Qed.

Section Unsupported.

Variable sha : list Byte.byte → string.
Variable os_walk : string → list (string * list string * list string).
Variable f : string.
Hypothesis Hf : Storage._is_supported f = false.

Lemma store_file_keeps_out (s : Session) (g : string) (w : World) :
  f ∉ filename <$> rows_of s w →
  f ∉ filename <$> rows_of s (state_of (Storage.store_file sha s g w)).
Proof.
  intros Hout. destruct (store_file_rows sha s g w) as [->|(Hg & h & ->)];
    [done|].
  rewrite fmap_app, elem_of_app. intros [?|Hin%list_elem_of_singleton]; [done|].
  cbn in Hin. congruence.
Qed.

Lemma process_keeps_out (s : Session) (g : string) (st : App.state) :
  kept_out f s st → kept_out f s (state_of (App.process sha g st)).
Proof.
  intros [Hs Hout]. unfold App.process, bind, App.in_world, App.self, gets,
    modify. cbn [fst snd]. rewrite Hs.
  pose proof (store_file_keeps_out s g (LOGGER (info_processing g) st.2) Hout)
    as Hkeep.
  destruct (Storage.store_file sha s g _) as [[] w'|e w'|w']; by split.
Qed.

Lemma analyze_dir_keeps_out (top : string) (st : App.state) :
  kept_out f (App._session st.1)
    (state_of (App.analyze_dir sha os_walk top st)).
Proof.
  unfold App.analyze_dir. apply bind_inv.
  { unfold bind, App.self, gets, App.in_world. cbn [fst snd].
    pose proof (reset_rows (App._session st.1) st.2) as Hrows.
    destruct (Storage.reset (App._session st.1) st.2) as [[] w'|e w'|w'];
      (split; [done|]); cbn [state_of snd] in *; rewrite Hrows;
      apply not_elem_of_nil. }
  intros _ st1 H1. apply bind_inv; [exact H1|].
  intros _ st2 H2. apply bind_inv.
  { rewrite sweep_flatten.
    by apply (for_each_inv (kept_out f (App._session st.1))
                (walked_paths os_walk top) (App.process sha)
                (process_keeps_out (App._session st.1))). }
  intros _ st3 H3. exact H3.
Qed.

End Unsupported.

(** C7.  For a path whose extension is not in the allow-list, [store_file]
    only logs that it skips it: it returns normally in every world, also
    where the file cannot be read or the index has no table, and the world
    is otherwise the same.  No call of [store_file] brings the path into
    the index, so after [analyze_dir], however it ends, no row and no
    duplicate group has it. *)
Theorem unsupported_file_never_indexed sha os_walk (s : Session) (f : string) :
  Py.lower (Storage.extension f) ∉ Storage.allow_list →
  (∀ w, Storage.store_file sha s f w = Return tt (LOGGER (info_skipping f) w)) ∧
  (∀ g w, f ∉ filename <$> rows_of s w →
          f ∉ filename <$> rows_of s (state_of (Storage.store_file sha s g w))) ∧
  (∀ top st,
     let st' := state_of (App.analyze_dir sha os_walk top st) in
     (f ∉ filename <$> rows_of (App._session st'.1) st'.2) ∧
     (∀ ds st'', App.get_all_duplicates st' = Return ds st'' →
                 ∀ d, d ∈ ds → f ∉ files d)).
Proof.
  intros Hext.
  assert (Storage._is_supported f = false) as Hf.
  { destruct (Storage._is_supported f) eqn:Hsup; [|done].
    by apply is_supported_true in Hsup. }
  split; [|split].
  - intros w. unfold Storage.store_file. by rewrite Hf.
  - intros g w. by apply store_file_keeps_out.
  - intros top st st'.
    destruct (analyze_dir_keeps_out sha os_walk f Hf top st) as [Hs Hout].
    fold st' in Hs, Hout. rewrite Hs. split; [done|].
    intros ds st'' Hrun d Hd Hin. apply Hout.
    unfold App.get_all_duplicates, bind, App.self, gets, App.in_world in Hrun.
    cbn [fst snd] in Hrun. rewrite Hs in Hrun.
    destruct (Storage.find_duplicates (App._session st.1) st'.2)
      as [ds' w'|e w'|w'] eqn:Hfind; [|done..].
    apply find_duplicates_inv in Hfind as [-> ->].
    injection Hrun as <- _. by eapply groups_files.
Qed.

Lemma unsupported_file_never_indexed_witness :
  Storage.store_file plain_digest demo_session "/pics/c.txt" demo_world =
    Return tt (LOGGER (info_skipping "/pics/c.txt") demo_world).
Proof.
  apply (unsupported_file_never_indexed plain_digest demo_walk demo_session
           "/pics/c.txt").
  vm_compute. intros Hin.
  repeat (apply elem_of_cons in Hin as [Hin|Hin]; [discriminate Hin|]).
  by apply elem_of_nil in Hin.
Defined.

(** ** do_delete_queued_files *)

(** *** Deleting the files of an entry *)



(** *** Deleting the rows of a group *)

Lemma filter_all {A} (P : A → Prop) `{!∀ x, Decision (P x)} (l : list A) :
  (∀ x, P x) → filter P l = l.
Proof.
  intros HP. induction l as [|x l IH]; [done|].
  rewrite filter_cons, decide_True by done. by rewrite IH.
Qed.

Lemma delete_rows_spec (s : Session) (fs : list string) (w : World)
    (rows : list Row) :
  sqlite w !! db s = Some (Some rows) →
  ∃ w', for_each fs (Storage.delete_where_filename s) w = Return tt w' ∧
        disk w' = disk w ∧ locked w' = locked w ∧ docs w' = docs w ∧
        log w' = log w ∧
        sqlite w' !! db s = Some (Some (filter (λ r, filename r ∉ fs) rows)).
Proof.
  revert w rows. induction fs as [|f fs IH]; intros w rows Hdb.
  - exists w. repeat split; try done. rewrite filter_all; [done|].
    intros r. apply not_elem_of_nil.
  - cbn [for_each]. unfold bind, Storage.delete_where_filename at 1,
      Storage.with_table. rewrite Hdb. unfold Storage.put_table, modify.
    destruct (IH (set_sqlite
                    (<[db s := Some (filter (λ r, filename r ≠ f) rows)]>
                       (sqlite w)) w)
                (filter (λ r, filename r ≠ f) rows))
      as (w' & Hrun & Hdisk & Hl & Hd & Hlog & Hdb').
    { cbn. by rewrite lookup_insert_eq. }
    exists w'. split; [done|]. repeat split; try done.
    rewrite Hdb', list_filter_filter. do 2 f_equal.
    apply list_filter_iff. intros r. rewrite not_elem_of_cons. tauto.
Qed.

Lemma storage_remove_spec (s : Session) (d : Duplicate) (w : World)
    (rows : list Row) :
  sqlite w !! db s = Some (Some rows) →
  ∃ w', Storage.remove s d w = Return tt w' ∧
        disk w' = disk w ∧ locked w' = locked w ∧ docs w' = docs w ∧
        log w' = log w ∧
        sqlite w' !! db s =
          Some (Some (filter (λ r, filename r ∉ files d) rows)).
Proof.
  intros Hdb. unfold Storage.remove, bind, modify.
  rewrite (connect_existing s w rows Hdb). by apply delete_rows_spec.
Qed.

(** *** Taking an entry off the queue *)

Lemma hashes_of_refs (objs : list DeletionEntry) (rs : list nat) :
  (∀ r, r ∈ rs → r < length objs) →
  Some <$> (hash_of <$> omap (λ r, objs !! r) rs) =
    (λ r, hash_of <$> objs !! r) <$> rs.
Proof.
  induction rs as [|r rs IH]; intros Hrs; [done|].
  destruct (lookup_lt_is_Some_2 objs r) as [e He]; [apply Hrs; by left|].
  cbn. rewrite He. cbn. f_equal. apply IH. intros r' Hr'. apply Hrs. by right.
Qed.

Lemma queue_NoDup (q : DeletionQueue.t) : wf q → NoDup (DeletionQueue._queue q).
Proof.
  intros Hwf. apply (NoDup_fmap_1 (λ r, hash_of <$> DeletionQueue.objs q !! r)).
  rewrite <- hashes_of_refs by apply Hwf.
  apply (NoDup_fmap_2 Some), Hwf.
Qed.

(** The queue after [remove] took out the entry at position [i]. *)
Lemma entries_without (q : DeletionQueue.t) (i r : nat) (e : DeletionEntry) :
  DeletionQueue._queue q !! i = Some r →
  DeletionQueue.objs q !! r = Some e →
  DeletionQueue.entries q ≡ₚ
    e :: omap (λ r, DeletionQueue.objs q !! r) (delete i (DeletionQueue._queue q)).
Proof.
  intros Hi He. unfold DeletionQueue.entries.
  rewrite (delete_Permutation _ i r Hi) at 1. cbn. by rewrite He.
Qed.

Lemma queue_remove_found (q : DeletionQueue.t) (i r : nat) (e : DeletionEntry) :
  wf q →
  DeletionQueue._queue q !! i = Some r →
  DeletionQueue.objs q !! r = Some e →
  DeletionQueue.queue_remove r q = Some (delete i (DeletionQueue._queue q)).
Proof.
  intros Hwf Hi He. unfold DeletionQueue.queue_remove.
  assert (list_find (λ r', DeletionQueue.objs q !! r' = DeletionQueue.objs q !! r)
            (DeletionQueue._queue q) = Some (i, r)) as ->; [|done].
  apply list_find_Some. split; [done|]. split; [done|].
  intros j y Hj Hlt Hy. rewrite He in Hy.
  assert (DeletionQueue._index q !! hash_of e = Some y) as Hiy.
  { apply (wf_index q Hwf). split; [by eapply list_elem_of_lookup_2|].
    unfold hash_at. by rewrite Hy. }
  assert (DeletionQueue._index q !! hash_of e = Some r) as Hir.
  { apply (wf_index q Hwf). split; [by eapply list_elem_of_lookup_2|].
    unfold hash_at. by rewrite He. }
  assert (y = r) as -> by congruence.
  pose proof (NoDup_lookup _ i j r (queue_NoDup q Hwf) Hi Hj). lia.
Qed.

Lemma remove_spec (q : DeletionQueue.t) (d : Duplicate) (i r : nat)
    (e : DeletionEntry) :
  wf q →
  DeletionQueue._queue q !! i = Some r →
  DeletionQueue.objs q !! r = Some e →
  content_hash d = hash_of e →
  DeletionQueue.remove d q = inr (without i (hash_of e) q).
Proof.
  intros Hwf Hi He Hd. unfold DeletionQueue.remove, DeletionQueue.get_ref.
  rewrite Hd.
  assert (DeletionQueue._index q !! hash_of e = Some r) as ->.
  { apply (wf_index q Hwf). split; [by eapply list_elem_of_lookup_2|].
    unfold hash_at. by rewrite He. }
  by rewrite (queue_remove_found q i r e).
Qed.

Lemma entries_remove (q : DeletionQueue.t) (i r : nat) (e : DeletionEntry) :
  DeletionQueue._queue q !! i = Some r →
  DeletionQueue.objs q !! r = Some e →
  DeletionQueue.entries q ≡ₚ
    e :: DeletionQueue.entries (without i (hash_of e) q).
Proof. apply entries_without. Qed.

Lemma wf_without (q : DeletionQueue.t) (i r : nat) (e : DeletionEntry) :
  wf q →
  DeletionQueue._queue q !! i = Some r →
  DeletionQueue.objs q !! r = Some e →
  wf (without i (hash_of e) q) ∧ hash_of e ∉ hashes (without i (hash_of e) q).
Proof.
  intros Hwf Hi He.
  pose proof (queue_NoDup q Hwf) as Hnd.
  rewrite (delete_Permutation _ i r Hi) in Hnd.
  apply NoDup_cons in Hnd as [Hr Hnd].
  assert (NoDup (hash_of e :: hashes (without i (hash_of e) q))) as Hh.
  { unfold hashes. rewrite <- (fmap_cons hash_of), <- entries_remove by done.
    apply Hwf. }
  apply NoDup_cons in Hh as [Hnot Hh]. split; [|done].
  assert (∀ r', r' ∈ delete i (DeletionQueue._queue q) ↔
                r' ∈ DeletionQueue._queue q ∧ r' ≠ r) as Hmem.
  { intros r'. rewrite (delete_Permutation (DeletionQueue._queue q) i r Hi) at 2.
    rewrite elem_of_cons. split.
    - intros Hr'. split; [by right|]. by intros ->.
    - by intros [[->|?] ?]. }
  split; [| |done].
  - intros r' Hr'. cbn in *. apply Hmem in Hr' as [Hr' _]. by apply Hwf.
  - intros h r'. cbn [DeletionQueue._index DeletionQueue._queue without].
    unfold hash_at. cbn [DeletionQueue.objs without]. fold (hash_at q r').
    rewrite Hmem. rewrite lookup_delete. case_decide as Hh'.
    + subst h. split; [done|]. intros [[Hr' Hne] Hat]. destruct Hne.
      assert (DeletionQueue._index q !! hash_of e = Some r') as H1
        by by apply (wf_index q Hwf).
      assert (DeletionQueue._index q !! hash_of e = Some r) as H2.
      { apply (wf_index q Hwf). split; [by eapply list_elem_of_lookup_2|].
        unfold hash_at. by rewrite He. }
      congruence.
    + rewrite (wf_index q Hwf). split.
      * intros [Hr' Hat]. split; [|done]. split; [done|]. intros ->.
        unfold hash_at in Hat. rewrite He in Hat. cbn in Hat. congruence.
      * by intros [[Hr' _] Hat].
Qed.

(** [remove] and [clear_deletion_queue] keep a queue well formed, as
    [add] does. *)
Lemma wf_remove (q : DeletionQueue.t) (d : Duplicate) :
  wf q → ∃ q', DeletionQueue.remove d q = inr q' ∧ wf q'.
Proof.
  intros Hwf.
  destruct (DeletionQueue._index q !! content_hash d) as [r|] eqn:Hr.
  - pose proof Hr as [Hin Hat]%(wf_index q Hwf).
    apply list_elem_of_lookup in Hin as [i Hi].
    destruct (wf_lookup q r Hwf) as [e He]; [by eapply list_elem_of_lookup_2|].
    unfold hash_at in Hat. rewrite He in Hat. injection Hat as Hat.
    exists (without i (hash_of e) q). split.
    + by apply (remove_spec q d i r e).
    + by apply (wf_without q i r e).
  - exists q. split; [|done].
    unfold DeletionQueue.remove, DeletionQueue.get_ref. by rewrite Hr.
Qed.

Lemma wf_clear (q : DeletionQueue.t) :
  wf (DeletionQueue.clear_deletion_queue q).
Proof.
  split; cbn.
  - intros r Hr. by apply elem_of_nil in Hr.
  - intros h r. rewrite lookup_empty. split; [done|].
    intros [Hr _]. by apply elem_of_nil in Hr.
  - constructor.
Qed.



(** *** One turn of the loop *)






(** *** The loop *)


(** C1, at an input where the code does not do what the claim says.  Two
    decisions are queued: keep [f.gif] of group [y], keep [a.jpg] of group
    [x].  Every file is there and [os.unlink] raises on none.  Removing the
    first entry from the list the loop iterates over moves the second one
    to position 0, and the iterator, now at position 1, stops: the entry of
    group [x] is never looked at.  [do_delete_queued_files] returns, and
    that entry is still queued, [b.jpg] is still on disk, the index still
    has both rows of the group, and the log has no line about it. *)
Theorem do_delete_queued_files_skips_queued_entry :
  DeletionQueue.entries demo_queue =
    [mkDeletionEntry (mkDuplicate "y" ["/pics/e.gif"; "/pics/f.gif"]) "/pics/f.gif";
     mkDeletionEntry (mkDuplicate "x" ["/pics/a.jpg"; "/pics/b.jpg"]) "/pics/a.jpg"] ∧
  locked unlocked_world = ∅ ∧
  disk unlocked_world !! "/pics/e.gif" = Some (Some [Byte.x79]) ∧
  disk unlocked_world !! "/pics/b.jpg" = Some (Some [Byte.x78]) ∧
  ∃ st',
    App.do_delete_queued_files (App.mk demo_session demo_queue, unlocked_world) =
      Some (Return tt st') ∧
    DeletionQueue.entries (App._delete_queue st'.1) =
      [mkDeletionEntry (mkDuplicate "x" ["/pics/a.jpg"; "/pics/b.jpg"])
         "/pics/a.jpg"] ∧
    disk st'.2 !! "/pics/e.gif" = None ∧
    disk st'.2 !! "/pics/b.jpg" = Some (Some [Byte.x78]) ∧
    rows_of demo_session st'.2 = demo_rows ∧
    log st'.2 = [info_deleting "/pics/e.gif"].
Proof.
  split; [reflexivity|]. split; [reflexivity|]. split; [reflexivity|].
  split; [reflexivity|].
  eexists. split; [vm_compute; reflexivity|].
  repeat split; reflexivity.
Qed.

(** * Further properties of the code *)

(** ** The queue: lookup, removal, sequences of calls *)

Lemma filter_all_in {A} (P : A → Prop) `{!∀ x, Decision (P x)} (l : list A) :
  (∀ x, x ∈ l → P x) → filter P l = l.
Proof.
  induction l as [|x l IH]; intros HP; [done|].
  rewrite filter_cons, decide_True by (apply HP; by left).
  rewrite IH; [done|]. intros y Hy. apply HP. by right.
Qed.

Lemma delete_as_filter {A B} `{!EqDecision B} (f : A → B) (es : list A)
    (i : nat) (e : A) :
  NoDup (f <$> es) → es !! i = Some e →
  delete i es = filter (λ e', f e' ≠ f e) es.
Proof.
  revert i. induction es as [|x es IH]; intros i Hnd Hi; [done|].
  rewrite fmap_cons in Hnd. apply NoDup_cons in Hnd as [Hx Hnd].
  rewrite filter_cons. destruct i as [|i]; cbn in Hi.
  - injection Hi as ->. rewrite decide_False by (intros H; by apply H).
    cbn. symmetry. apply filter_all_in. intros y Hy Heq. apply Hx.
    rewrite <- Heq. by apply list_elem_of_fmap_2.
  - rewrite decide_True.
    + cbn. f_equal. by apply IH.
    + intros Heq. apply Hx. rewrite Heq.
      by eapply list_elem_of_fmap_2, list_elem_of_lookup_2.
Qed.

Lemma entries_as_fmap (q : DeletionQueue.t) :
  refs_valid q →
  Some <$> DeletionQueue.entries q =
    (λ r, DeletionQueue.objs q !! r) <$> DeletionQueue._queue q.
Proof.
  unfold refs_valid, DeletionQueue.entries.
  induction (DeletionQueue._queue q) as [|r rs IH]; intros Hrs; [done|].
  destruct (lookup_lt_is_Some_2 (DeletionQueue.objs q) r) as [e He];
    [apply Hrs; by left|].
  cbn. rewrite He. cbn. f_equal. apply IH. intros r' Hr'. apply Hrs. by right.
Qed.

Lemma entries_lookup (q : DeletionQueue.t) (i r : nat) :
  refs_valid q → DeletionQueue._queue q !! i = Some r →
  DeletionQueue.entries q !! i = DeletionQueue.objs q !! r.
Proof.
  intros Hrefs Hi.
  pose proof (f_equal (λ l, l !! i) (entries_as_fmap q Hrefs)) as Heq.
  cbn in Heq. rewrite !list_lookup_fmap, Hi in Heq. cbn in Heq.
  destruct (lookup_lt_is_Some_2 (DeletionQueue.objs q) r) as [e He].
  { apply Hrefs. by eapply list_elem_of_lookup_2. }
  rewrite He in Heq |- *.
  destruct (DeletionQueue.entries q !! i); cbn in Heq; congruence.
Qed.


(** Taking a reference out of [_queue] takes the entry at the same
    position out of the sequence of entries. *)
Lemma entries_without_delete (q : DeletionQueue.t) (i : nat) (h : string) :
  refs_valid q →
  DeletionQueue.entries (without i h q) = delete i (DeletionQueue.entries q).
Proof.
  intros Hrefs. apply (inj (fmap Some)).
  rewrite list_fmap_delete, (entries_as_fmap q Hrefs), entries_as_fmap.
  - cbn. by rewrite list_fmap_delete.
  - intros r Hr. cbn in *. apply Hrefs. by eapply list_elem_of_delete_inv.
Qed.

Lemma get_by_hash_absent (q : DeletionQueue.t) (h : string) :
  wf q → h ∉ hashes q → DeletionQueue.get_by_hash h q = None.
Proof.
  intros Hwf Hno.
  destruct (DeletionQueue.get_by_hash h q) as [e|] eqn:Hget; [|done].
  apply get_by_hash_spec in Hget as [Hin <-]; [|done].
  destruct Hno. by apply list_elem_of_fmap_2.
Qed.

(** What [remove] returns on a well-formed queue. *)
Lemma remove_result (q : DeletionQueue.t) (d : Duplicate) :
  wf q →
  ∃ q', DeletionQueue.remove d q = inr q' ∧ wf q' ∧
        DeletionQueue.entries q' =
          filter (λ e, hash_of e ≠ content_hash d) (DeletionQueue.entries q) ∧
        ∀ h, DeletionQueue.get_by_hash h q' =
             if decide (h = content_hash d) then None
             else DeletionQueue.get_by_hash h q.
Proof.
  intros Hwf.
  destruct (DeletionQueue._index q !! content_hash d) as [r|] eqn:Hr.
  - pose proof Hr as [Hin Hat]%(wf_index q Hwf).
    apply list_elem_of_lookup in Hin as [i Hi].
    destruct (wf_lookup q r Hwf) as [e He]; [by eapply list_elem_of_lookup_2|].
    unfold hash_at in Hat. rewrite He in Hat. injection Hat as Hat.
    exists (without i (hash_of e) q). split; [by apply (remove_spec q d i r e)|].
    split; [by apply (wf_without q i r e)|]. split.
    + rewrite entries_without_delete by apply Hwf. rewrite <- Hat.
      apply (delete_as_filter hash_of); [apply Hwf|].
      by rewrite (entries_lookup q i r) by (apply Hwf || done).
    + intros h. unfold DeletionQueue.get_by_hash, DeletionQueue.get_ref.
      cbn [DeletionQueue._index DeletionQueue.objs without].
      rewrite Hat, lookup_delete. by repeat case_decide.
  - exists q. split.
    { unfold DeletionQueue.remove, DeletionQueue.get_ref. by rewrite Hr. }
    split; [done|]. split.
    + symmetry. apply filter_all_in. intros e He Heq.
      assert (is_Some (DeletionQueue._index q !! content_hash d)) as [? ?];
        [|congruence].
      apply index_hashes; [done|]. unfold hashes. rewrite <- Heq.
      by apply list_elem_of_fmap_2.
    + intros h. case_decide as Hh; [|done]. subst h.
      unfold DeletionQueue.get_by_hash, DeletionQueue.get_ref. by rewrite Hr.
Qed.

(** X1.  On a queue that [add], [remove] and [clear_deletion_queue] built,
    [remove] never raises.  It takes out the entry filed under the hash of
    the duplicate, if there is one, and leaves the other entries in their
    order; afterwards [get_by_hash] finds nothing under that hash and what
    it found before under every other. *)
Theorem remove_takes_out_the_entry (q : DeletionQueue.t) (d : Duplicate) :
  wf q →
  ∃ q', DeletionQueue.remove d q = inr q' ∧
        DeletionQueue.entries q' =
          filter (λ e, hash_of e ≠ content_hash d) (DeletionQueue.entries q) ∧
        DeletionQueue.get_by_hash (content_hash d) q' = None ∧
        (∀ h, h ≠ content_hash d →
              DeletionQueue.get_by_hash h q' = DeletionQueue.get_by_hash h q) ∧
        (content_hash d ∉ hashes q →
         DeletionQueue.entries q' = DeletionQueue.entries q).
Proof.
  intros Hwf. destruct (remove_result q d Hwf) as (q' & Hrun & _ & Hent & Hget).
  exists q'. split; [done|]. split; [done|]. split; [|split].
  - by rewrite Hget, decide_True.
  - intros h Hh. by rewrite Hget, decide_False.
  - intros Hno. rewrite Hent. apply filter_all_in. intros e He Heq.
    apply Hno. unfold hashes. rewrite <- Heq. by apply list_elem_of_fmap_2.
Qed.

Lemma remove_takes_out_the_entry_witness :
  ∃ q', DeletionQueue.remove (mkDuplicate "y" []) demo_queue = inr q' ∧
        DeletionQueue.entries q' =
          filter (λ e, hash_of e ≠ "y") (DeletionQueue.entries demo_queue).
Proof.
  destruct (remove_takes_out_the_entry demo_queue (mkDuplicate "y" []))
    as (q' & Hrun & Hent & _).
  - apply wf_adds, wf_new.
  - exists q'. by split.
Defined.

(** What [add] leaves under each hash. *)
Lemma add_result (q : DeletionQueue.t) (d : Duplicate) (keep : string) :
  wf q →
  ∀ h, DeletionQueue.get_by_hash h (DeletionQueue.add d keep q) =
       if decide (h = content_hash d) then
         Some (match DeletionQueue.get_by_hash (content_hash d) q with
               | Some e => set_to_keep keep e
               | None => mkDeletionEntry d keep
               end)
       else DeletionQueue.get_by_hash h q.
Proof.
  intros Hwf h.
  unfold DeletionQueue.add, DeletionQueue.get_by_hash, DeletionQueue.get_ref.
  destruct (DeletionQueue._index q !! content_hash d) as [r|] eqn:Hr.
  - pose proof Hr as [Hin Hat]%(wf_index q Hwf).
    destruct (wf_lookup q r Hwf Hin) as [e He].
    cbn [DeletionQueue._index DeletionQueue.objs mbind option_bind].
    case_decide as Hh.
    + subst h. rewrite Hr. cbn. by rewrite list_lookup_alter_eq, He.
    + destruct (DeletionQueue._index q !! h) as [r'|] eqn:Hr'; [|done]. cbn.
      rewrite list_lookup_alter_ne; [done|]. intros <-.
      apply (wf_index q Hwf) in Hr' as [_ Hat']. congruence.
  - unfold DeletionQueue._add_new.
    cbn [DeletionQueue._index DeletionQueue.objs mbind option_bind
         duplicate content_hash].
    case_decide as Hh.
    + subst h. rewrite lookup_insert_eq. cbn. by rewrite list_lookup_middle.
    + rewrite lookup_insert_ne by done.
      destruct (DeletionQueue._index q !! h) as [r'|] eqn:Hr'; [|done]. cbn.
      apply lookup_app_l. apply (wf_index q Hwf) in Hr' as [Hin _].
      by apply Hwf.
Qed.

(** X2.  After [add], [get_by_hash] under the hash of the duplicate finds
    an entry whose [to_keep] is the one given.  When the hash was already
    queued, that entry keeps the duplicate it had: the [files] of the
    duplicate passed to [add] are not taken over.  Entries under other
    hashes are found as before. *)
Theorem add_then_get_by_hash (q : DeletionQueue.t) (d : Duplicate)
    (keep : string) :
  wf q →
  (∀ e, DeletionQueue.get_by_hash (content_hash d) q = Some e →
        DeletionQueue.get_by_hash (content_hash d) (DeletionQueue.add d keep q) =
          Some (mkDeletionEntry (duplicate e) keep)) ∧
  (DeletionQueue.get_by_hash (content_hash d) q = None →
   DeletionQueue.get_by_hash (content_hash d) (DeletionQueue.add d keep q) =
     Some (mkDeletionEntry d keep)) ∧
  (∀ h, h ≠ content_hash d →
        DeletionQueue.get_by_hash h (DeletionQueue.add d keep q) =
          DeletionQueue.get_by_hash h q).
Proof.
  intros Hwf. split; [|split].
  - intros e He. by rewrite add_result, decide_True, He.
  - intros He. by rewrite add_result, decide_True, He.
  - intros h Hh. by rewrite add_result, decide_False.
Qed.

Lemma add_then_get_by_hash_witness :
  DeletionQueue.get_by_hash "x"
    (DeletionQueue.add (mkDuplicate "x" ["/other"]) "/pics/b.jpg" demo_queue) =
  Some (mkDeletionEntry (mkDuplicate "x" ["/pics/a.jpg"; "/pics/b.jpg"])
          "/pics/b.jpg").
Proof.
  apply (proj1 (add_then_get_by_hash demo_queue (mkDuplicate "x" ["/other"])
                  "/pics/b.jpg" ltac:(apply wf_adds, wf_new))
           (mkDeletionEntry (mkDuplicate "x" ["/pics/a.jpg"; "/pics/b.jpg"])
              "/pics/a.jpg")).
  reflexivity.
Defined.

(** X3.  [remove] undoes an [add] for a hash that was not queued: the
    entries are those before the [add], in their order, and every lookup
    gives what it gave. *)
Theorem remove_undoes_fresh_add (q : DeletionQueue.t) (d : Duplicate)
    (keep : string) :
  wf q → content_hash d ∉ hashes q →
  ∃ q', DeletionQueue.remove d (DeletionQueue.add d keep q) = inr q' ∧
        DeletionQueue.entries q' = DeletionQueue.entries q ∧
        ∀ h, DeletionQueue.get_by_hash h q' = DeletionQueue.get_by_hash h q.
Proof.
  intros Hwf Hno.
  destruct (remove_result (DeletionQueue.add d keep q) d (wf_add q d keep Hwf))
    as (q' & Hrun & _ & Hent & Hget).
  exists q'. split; [done|]. split.
  - rewrite Hent, add_fresh by done. rewrite filter_app, filter_cons.
    rewrite decide_False by (intros H; by apply H).
    rewrite filter_nil, app_nil_r. apply filter_all_in. intros e He Heq.
    apply Hno. unfold hashes. rewrite <- Heq. by apply list_elem_of_fmap_2.
  - intros h. rewrite Hget. case_decide as Hh.
    + subst h. symmetry. by apply get_by_hash_absent.
    + by rewrite add_result, decide_False.
Qed.

Lemma remove_undoes_fresh_add_witness :
  ∃ q', DeletionQueue.remove (mkDuplicate "z" ["/p"; "/q"])
          (DeletionQueue.add (mkDuplicate "z" ["/p"; "/q"]) "/p" demo_queue) =
        inr q' ∧
        DeletionQueue.entries q' = DeletionQueue.entries demo_queue.
Proof.
  destruct (remove_undoes_fresh_add demo_queue (mkDuplicate "z" ["/p"; "/q"]) "/p")
    as (q' & Hrun & Hent & _).
  - apply wf_adds, wf_new.
  - vm_compute. intros Hin.
    repeat (apply elem_of_cons in Hin as [Hin|Hin]; [discriminate Hin|]).
    by apply elem_of_nil in Hin.
  - exists q'. by split.
Defined.

Lemma wf_calls (cs : list queue_call) (q : DeletionQueue.t) :
  wf q → ∃ q', calls cs q = inr q' ∧ wf q'.
Proof.
  revert q. induction cs as [|c cs IH]; intros q Hwf; [by exists q|].
  cbn [calls]. destruct c as [d keep|d|]; cbn [call].
  - apply IH. by apply wf_add.
  - destruct (wf_remove q d Hwf) as (q1 & -> & Hwf1). by apply IH.
  - apply IH, wf_clear.
Qed.

(** X4.  Whatever sequence of [add], [remove] and [clear_deletion_queue] is
    made on a new queue, no call raises, the queue holds at most one entry
    per hash, and [get_by_hash] finds an entry under a hash exactly when
    that entry is in the queue and has that hash. *)
Theorem queue_calls_keep_index_and_list_in_step (s : Session)
    (cs : list queue_call) :
  ∃ q, calls cs (DeletionQueue.new s) = inr q ∧
       NoDup (hashes q) ∧
       ∀ h e, DeletionQueue.get_by_hash h q = Some e ↔
              e ∈ DeletionQueue.entries q ∧ hash_of e = h.
Proof.
  destruct (wf_calls cs (DeletionQueue.new s) (wf_new s)) as (q & Hrun & Hwf).
  exists q. split; [done|]. split; [apply Hwf|].
  intros h e. by apply get_by_hash_spec.
Qed.

(** ** DeletionQueue.load on other documents *)

Lemma get_by_hash_add_new (q : DeletionQueue.t) (e : DeletionEntry) (h : string) :
  (∀ h r, DeletionQueue._index q !! h = Some r →
          r < length (DeletionQueue.objs q)) →
  DeletionQueue.get_by_hash h (DeletionQueue._add_new e q) =
    if decide (hash_of e = h) then Some e else DeletionQueue.get_by_hash h q.
Proof.
  intros Hidx.
  unfold DeletionQueue.get_by_hash, DeletionQueue.get_ref, DeletionQueue._add_new.
  cbn [DeletionQueue._index DeletionQueue.objs]. fold (hash_of e).
  case_decide as Hh.
  - subst h. rewrite lookup_insert_eq. cbn. by rewrite list_lookup_middle.
  - rewrite lookup_insert_ne by done.
    destruct (DeletionQueue._index q !! h) as [r|] eqn:Hr; [|done]. cbn.
    apply lookup_app_l. by eapply Hidx.
Qed.

Lemma get_by_hash_add_all (es : list DeletionEntry) (q : DeletionQueue.t)
    (h : string) :
  (∀ h r, DeletionQueue._index q !! h = Some r →
          r < length (DeletionQueue.objs q)) →
  DeletionQueue.get_by_hash h (foldl (λ q e, DeletionQueue._add_new e q) q es) =
    match last_with h es with
    | Some e => Some e
    | None => DeletionQueue.get_by_hash h q
    end.
Proof.
  revert q. induction es as [|e es IH]; intros q Hidx; [done|].
  cbn [foldl]. rewrite IH.
  - unfold last_with. rewrite filter_cons.
    rewrite (get_by_hash_add_new q e h Hidx).
    destruct (decide (hash_of e = h)) as [Hh|Hh]; [|done].
    destruct (filter (λ e0, hash_of e0 = h) es) as [|x l] eqn:Hf; [done|].
    change (last (e :: x :: l)) with (last (x :: l)).
    destruct (last (x :: l)) eqn:Hl; [done|]. by apply last_None in Hl.
  - intros h' r. cbn. rewrite length_app. cbn.
    destruct (decide (content_hash (duplicate e) = h')) as [<-|Hne].
    + rewrite lookup_insert_eq. intros [= <-]. lia.
    + rewrite lookup_insert_ne by done. intros Hr%Hidx. lia.
Qed.

(** X5.  [load] does not merge entries that share a hash: of a document
    that lists entries [es], it returns a queue holding all of [es] in
    order, and [get_by_hash] finds under each hash the last entry of [es]
    filed under it.  The queue does then hold two entries for one group. *)
Theorem load_keeps_every_entry (s : Session) (w : World)
    (es : list DeletionEntry) :
  docs w !! queue_file s = Some (Some (JArray (DeletionEntry_to_dict <$> es))) →
  ∃ q, DeletionQueue.load s w = Return q w ∧
       DeletionQueue.entries q = es ∧
       ∀ h, DeletionQueue.get_by_hash h q = last_with h es.
Proof.
  intros Hdoc. unfold DeletionQueue.load. rewrite Hdoc.
  cbn [DeletionQueue.iterate]. rewrite load_entries_to_dict.
  eexists. split; [done|]. split.
  - rewrite entries_add_all; [done|]. intros r Hr. by apply elem_of_nil in Hr.
  - intros h. rewrite get_by_hash_add_all.
    + by destruct (last_with h es).
    + intros h' r. cbn. by rewrite lookup_empty.
Qed.

Lemma load_keeps_every_entry_witness :
  ∃ q, DeletionQueue.load demo_session
         (set_docs
            {[queue_file demo_session :=
                Some (JArray (DeletionEntry_to_dict <$>
                  [mkDeletionEntry (mkDuplicate "x" ["/a"; "/b"]) "/a";
                   mkDeletionEntry (mkDuplicate "x" ["/a"; "/b"]) "/b"]))]}
            demo_world) =
       Return q
         (set_docs
            {[queue_file demo_session :=
                Some (JArray (DeletionEntry_to_dict <$>
                  [mkDeletionEntry (mkDuplicate "x" ["/a"; "/b"]) "/a";
                   mkDeletionEntry (mkDuplicate "x" ["/a"; "/b"]) "/b"]))]}
            demo_world) ∧
       DeletionQueue.entries q =
         [mkDeletionEntry (mkDuplicate "x" ["/a"; "/b"]) "/a";
          mkDeletionEntry (mkDuplicate "x" ["/a"; "/b"]) "/b"].
Proof.
  destruct (load_keeps_every_entry demo_session
              (set_docs
                 {[queue_file demo_session :=
                     Some (JArray (DeletionEntry_to_dict <$>
                       [mkDeletionEntry (mkDuplicate "x" ["/a"; "/b"]) "/a";
                        mkDeletionEntry (mkDuplicate "x" ["/a"; "/b"]) "/b"]))]}
                 demo_world)
              [mkDeletionEntry (mkDuplicate "x" ["/a"; "/b"]) "/a";
               mkDeletionEntry (mkDuplicate "x" ["/a"; "/b"]) "/b"])
    as (q & Hrun & Hent & _).
  - reflexivity.
  - exists q. by split.
Defined.

(** X6.  A queue file that parses but holds no array is not refused as
    such.  An empty object or an empty string gives an empty queue, as an
    empty array does; [null], a boolean or a number raises [TypeError],
    since it cannot be iterated. *)
Theorem load_of_a_document_without_entries (s : Session) (w : World)
    (data : json) :
  docs w !! queue_file s = Some (Some data) →
  (data = JArray [] ∨ data = JObject [] ∨ data = JString EmptyString →
   DeletionQueue.load s w = Return (DeletionQueue.new s) w) ∧
  (data = JNull ∨ (∃ b, data = JBool b) ∨ (∃ n, data = JNumber n) →
   DeletionQueue.load s w = Raise TypeError w).
Proof.
  intros Hdoc. unfold DeletionQueue.load. rewrite Hdoc. split.
  - by intros [->|[->| ->]].
  - by intros [->|[[b ->]|[n ->]]].
Qed.

Lemma load_of_a_document_without_entries_witness :
  DeletionQueue.load demo_session
    (set_docs {[queue_file demo_session := Some (JObject [])]} demo_world) =
  Return (DeletionQueue.new demo_session)
    (set_docs {[queue_file demo_session := Some (JObject [])]} demo_world).
Proof.
  destruct (load_of_a_document_without_entries demo_session
              (set_docs {[queue_file demo_session := Some (JObject [])]}
                 demo_world)
              (JObject [])) as [Hempty _]; [reflexivity|].
  apply Hempty. right. by left.
Defined.

Lemma load_entries_decoded (items : list json) (es : list DeletionEntry)
    (q : DeletionQueue.t) :
  Forall2 (λ j e, DeletionEntry_from_dict j = Decoded e) items es →
  DeletionQueue.load_entries items q =
    Decoded (foldl (λ q e, DeletionQueue._add_new e q) q es).
Proof.
  intros Hall. revert q.
  induction Hall as [|j e items es Hj Hall IH]; intros q; [done|].
  cbn [DeletionQueue.load_entries foldl]. rewrite Hj. apply IH.
Qed.

Lemma load_entries_refused (pre post : list json) (es : list DeletionEntry)
    (bad : json) (e : exn) (q : DeletionQueue.t) :
  Forall2 (λ j e, DeletionEntry_from_dict j = Decoded e) pre es →
  DeletionEntry_from_dict bad = Refused e →
  DeletionQueue.load_entries (pre ++ bad :: post) q = Refused e.
Proof.
  intros Hall Hbad. revert q.
  induction Hall as [|j e' items es' Hj Hall IH]; intros q.
  - cbn [app DeletionQueue.load_entries]. by rewrite Hbad.
  - cbn [app DeletionQueue.load_entries]. rewrite Hj. apply IH.
Qed.

(** What [from_dict] makes of values of other types than the declared
    ones: a number for a [str] is taken through [str()], a string for a
    [list[str]] through [list()]. *)
Lemma from_dict_converts :
  DeletionEntry_from_dict
    (JObject [("duplicate", JObject [("content_hash", JNumber 7);
                                     ("files", JString "ab")]);
              ("to_keep", JNumber 5)]) =
  Decoded (mkDeletionEntry (mkDuplicate "7" ["a"; "b"]) "5").
Proof. reflexivity. Qed.

(** X7.  [load] takes all of an array or nothing.  When [from_dict] decodes
    every element, [load] returns a queue of exactly the decoded entries,
    in order.  When it decodes the elements up to one that it refuses,
    [load] raises what [from_dict] raised and returns no queue, whatever
    follows that element: [AttributeError] for an element that is not an
    object, [KeyError] for an object without [duplicate]. *)
Theorem load_takes_all_or_nothing (s : Session) (w : World)
    (pre post : list json) (es : list DeletionEntry) (bad : json) :
  Forall2 (λ j e, DeletionEntry_from_dict j = Decoded e) pre es →
  (docs w !! queue_file s = Some (Some (JArray pre)) →
   ∃ q, DeletionQueue.load s w = Return q w ∧ DeletionQueue.entries q = es) ∧
  (docs w !! queue_file s = Some (Some (JArray (pre ++ bad :: post))) →
   (∀ e, DeletionEntry_from_dict bad = Refused e →
         DeletionQueue.load s w = Raise e w) ∧
   ((∀ kvs, bad ≠ JObject kvs) →
    DeletionQueue.load s w = Raise AttributeError w) ∧
   (∀ kvs, bad = JObject kvs → member "duplicate" kvs = None →
           DeletionQueue.load s w = Raise (KeyError "duplicate") w)).
Proof.
  intros Hall. split.
  - intros Hdoc. unfold DeletionQueue.load. rewrite Hdoc.
    cbn [DeletionQueue.iterate].
    rewrite (load_entries_decoded _ _ _ Hall). eexists. split; [done|].
    rewrite entries_add_all; [done|]. intros r Hr. by apply elem_of_nil in Hr.
  - intros Hdoc.
    assert (∀ e, DeletionEntry_from_dict bad = Refused e →
                 DeletionQueue.load s w = Raise e w) as Hrefused.
    { intros e Hbad. unfold DeletionQueue.load. rewrite Hdoc.
      cbn [DeletionQueue.iterate].
      by rewrite (load_entries_refused _ _ _ _ _ _ Hall Hbad). }
    split; [done|]. split.
    + intros Hshape. apply Hrefused. destruct bad; try done.
      by destruct (Hshape members).
    + intros kvs -> Hno. apply Hrefused.
      unfold DeletionEntry_from_dict, field. by rewrite Hno.
Qed.

Lemma load_takes_all_or_nothing_witness :
  DeletionQueue.load demo_session
    (set_docs
       {[queue_file demo_session :=
           Some (JArray
             ([DeletionEntry_to_dict
                 (mkDeletionEntry (mkDuplicate "x" ["/a"; "/b"]) "/a")] ++
              JNull :: []))]}
       demo_world) =
  Raise AttributeError
    (set_docs
       {[queue_file demo_session :=
           Some (JArray
             ([DeletionEntry_to_dict
                 (mkDeletionEntry (mkDuplicate "x" ["/a"; "/b"]) "/a")] ++
              JNull :: []))]}
       demo_world).
Proof.
  destruct (load_takes_all_or_nothing demo_session
              (set_docs
                 {[queue_file demo_session :=
                     Some (JArray
                       ([DeletionEntry_to_dict
                           (mkDeletionEntry (mkDuplicate "x" ["/a"; "/b"]) "/a")] ++
                        JNull :: []))]}
                 demo_world)
              [DeletionEntry_to_dict
                 (mkDeletionEntry (mkDuplicate "x" ["/a"; "/b"]) "/a")]
              []
              [mkDeletionEntry (mkDuplicate "x" ["/a"; "/b"]) "/a"]
              JNull) as [_ Hbad].
  - apply Forall2_cons_2; [reflexivity|]. by apply Forall2_nil.
  - destruct Hbad as (_ & Hshape & _); [reflexivity|].
    apply Hshape. intros kvs Hkvs. discriminate Hkvs.
Defined.

(** ** Classification of names with a dot *)

Lemma rsplit_dot_app (stem ext : string) :
  Py.has_dot ext = false →
  Py.rsplit_dot (stem ++ "." ++ ext)%string = [stem; ext].
Proof.
  intros Hext. induction stem as [|c stem IH].
  - change (Py.rsplit_dot (String "."%char ext) = [EmptyString; ext]).
    cbn [Py.rsplit_dot]. by rewrite (rsplit_dot_no_dot ext Hext).
  - change (Py.rsplit_dot (String c (stem ++ "." ++ ext)%string) =
            [String c stem; ext]).
    cbn [Py.rsplit_dot]. by rewrite IH.
Qed.

(** X8.  Only the text after the last dot of the whole path counts, and
    its case does not: a name [stem.ext], where [ext] has no dot, is
    supported exactly when [ext] lowercased is in the allow-list, whatever
    [stem] is, be it empty, a name with more dots or a path through
    directories. *)
Theorem extension_is_after_the_last_dot (stem ext : string) :
  Py.has_dot ext = false →
  Storage.extension (stem ++ "." ++ ext)%string = ext ∧
  Storage._is_supported (stem ++ "." ++ ext)%string =
    bool_decide (Py.lower ext ∈ Storage.allow_list).
Proof.
  intros Hext.
  assert (Storage.extension (stem ++ "." ++ ext)%string = ext) as Heq.
  { unfold Storage.extension. by rewrite rsplit_dot_app. }
  split; [done|]. unfold Storage._is_supported. by rewrite Heq.
Qed.

Lemma extension_is_after_the_last_dot_witness :
  Storage._is_supported ("/pics/archive.tar" ++ "." ++ "GIF")%string = true ∧
  Storage._is_supported ("/pics/a.gif" ++ "." ++ "txt")%string = false.
Proof.
  split.
  - rewrite (proj2 (extension_is_after_the_last_dot "/pics/archive.tar" "GIF"
                      eq_refl)). reflexivity.
  - rewrite (proj2 (extension_is_after_the_last_dot "/pics/a.gif" "txt"
                      eq_refl)). reflexivity.
Defined.

(** ** Hashing *)

(** X9.  [_hash_file] hashes the bytes of the file, all of them and in
    order, whatever the length of the file against the chunk of 4096 bytes,
    and changes nothing; on a file that is missing or cannot be opened it
    raises the error of [open].  Two readable files with the same bytes
    get the same hash. *)
Theorem hash_file_is_digest_of_content sha (f : string) (w : World) :
  (∀ data, disk w !! f = Some (Some data) →
           Storage._hash_file sha f w = Return (sha data) w) ∧
  (disk w !! f = Some None →
   Storage._hash_file sha f w = Raise (PermissionError f) w) ∧
  (disk w !! f = None →
   Storage._hash_file sha f w = Raise (FileNotFoundError f) w) ∧
  (∀ g data, disk w !! f = Some (Some data) → disk w !! g = Some (Some data) →
             Storage._hash_file sha f w = Storage._hash_file sha g w).
Proof.
  split; [|split; [|split]].
  - intros data Hd. by apply hash_file_readable.
  - intros Hd. unfold Storage._hash_file. by rewrite Hd.
  - intros Hd. unfold Storage._hash_file. by rewrite Hd.
  - intros g data Hf Hg.
    by rewrite (hash_file_readable sha f w data Hf),
               (hash_file_readable sha g w data Hg).
Qed.

Lemma hash_file_is_digest_of_content_witness :
  Storage._hash_file plain_digest "/pics/a.jpg" demo_world =
    Return (plain_digest [Byte.x78]) demo_world.
Proof.
  apply (proj1 (hash_file_is_digest_of_content plain_digest "/pics/a.jpg"
                  demo_world)).
  reflexivity.
Defined.

(** ** The index without its table *)

Lemma connect_creates (s : Session) (w : World) :
  sqlite w !! db s = Some None ∨
  (sqlite w !! db s = None ∧ session_dir s ∈ dirs w) →
  Storage._connect s w = Return tt (opened s w) ∧
  sqlite (opened s w) !! db s = Some None.
Proof.
  intros Hdb. split; [|unfold opened; cbn; by rewrite lookup_insert_eq].
  unfold Storage._connect. destruct Hdb as [Hdb|[Hdb Hdir]]; rewrite Hdb.
  - f_equal. unfold opened, set_sqlite. rewrite insert_id by done.
    by destruct w.
  - by rewrite bool_decide_eq_true_2.
Qed.

Lemma connect_fails (s : Session) (w : World) :
  sqlite w !! db s = None → session_dir s ∉ dirs w →
  Storage._connect s w = Raise Storage.unable_to_open w.
Proof.
  intros Hdb Hdir. unfold Storage._connect.
  by rewrite Hdb, bool_decide_eq_false_2.
Qed.

(** X10.  Before [reset] has created the table, the index cannot be used.
    Where the database file exists, or can be created because the session
    directory exists, [store_file] of a supported readable file,
    [find_duplicates], and [remove] of a duplicate that has files all raise
    [sqlite3.OperationalError] for the missing table, the connection having
    created an empty database file; [remove] of a duplicate without files
    returns, since it executes no statement.  Where neither the file nor
    the directory exists, all of them, [remove] of a duplicate without
    files too, raise [sqlite3.OperationalError] on connecting, and nothing
    is created. *)
Theorem index_without_table_raises sha (s : Session) (w : World) :
  sqlite w !! db s = None ∨ sqlite w !! db s = Some None →
  (sqlite w !! db s = Some None ∨ session_dir s ∈ dirs w →
   (∀ f data, Storage._is_supported f = true → disk w !! f = Some (Some data) →
      Storage.store_file sha s f w =
        Raise Storage.no_such_table (opened s w)) ∧
   Storage.find_duplicates s w = Raise Storage.no_such_table (opened s w) ∧
   (∀ d, files d ≠ [] →
      Storage.remove s d w = Raise Storage.no_such_table (opened s w)) ∧
   (∀ d, files d = [] → Storage.remove s d w = Return tt (opened s w)) ∧
   sqlite (opened s w) !! db s = Some None) ∧
  (sqlite w !! db s = None → session_dir s ∉ dirs w →
   (∀ f data, Storage._is_supported f = true → disk w !! f = Some (Some data) →
      Storage.store_file sha s f w = Raise Storage.unable_to_open w) ∧
   Storage.find_duplicates s w = Raise Storage.unable_to_open w ∧
   (∀ d, Storage.remove s d w = Raise Storage.unable_to_open w)).
Proof.
  intros Hdb. split.
  - intros Hcan.
    destruct (connect_creates s w) as [Hconn Hc].
    { destruct Hdb as [Hdb|Hdb]; [|by left].
      destruct Hcan as [Hcan|Hcan]; [by left|by right]. }
    split; [|split; [|split; [|split]]]; [| | | |done].
    + intros f data Hsup Hdisk. unfold Storage.store_file. rewrite Hsup.
      cbn [negb]. unfold bind. rewrite (hash_file_readable _ _ _ _ Hdisk).
      rewrite Hconn. unfold Storage.insert_row, Storage.with_table.
      by rewrite Hc.
    + unfold Storage.find_duplicates, bind, Storage.with_table.
      by rewrite Hconn, Hc.
    + intros d Hfs. unfold Storage.remove, bind. rewrite Hconn.
      destruct (files d) as [|f fs]; [done|]. cbn [for_each]. unfold bind.
      unfold Storage.delete_where_filename, Storage.with_table. by rewrite Hc.
    + intros d Hfs. unfold Storage.remove, bind. by rewrite Hconn, Hfs.
  - intros Hno Hdir. pose proof (connect_fails s w Hno Hdir) as Hconn.
    split; [|split].
    + intros f data Hsup Hdisk. unfold Storage.store_file. rewrite Hsup.
      cbn [negb]. unfold bind. rewrite (hash_file_readable _ _ _ _ Hdisk).
      by rewrite Hconn.
    + unfold Storage.find_duplicates, bind. by rewrite Hconn.
    + intros d. unfold Storage.remove, bind. by rewrite Hconn.
Qed.

Lemma index_without_table_raises_witness :
  Storage.find_duplicates demo_session (set_sqlite ∅ demo_world) =
    Raise Storage.no_such_table (opened demo_session (set_sqlite ∅ demo_world)) ∧
  Storage.find_duplicates (mkSession "/fresh") demo_world =
    Raise Storage.unable_to_open demo_world.
Proof.
  split.
  - destruct (index_without_table_raises plain_digest demo_session
                (set_sqlite ∅ demo_world)) as [Hthere _]; [by left|].
    destruct Hthere as (_ & Hfind & _); [right; apply demo_directory|].
    exact Hfind.
  - destruct (index_without_table_raises plain_digest (mkSession "/fresh")
                demo_world) as [_ Hnowhere]; [by left|].
    destruct Hnowhere as (_ & Hfind & _); [reflexivity| |exact Hfind].
    cbn. intros Hin. apply elem_of_singleton in Hin. discriminate Hin.
Defined.

(** ** Removing a group from the index *)

Lemma filter_filter_in {A} (P Q : A → Prop) `{!∀ x, Decision (P x)}
    `{!∀ x, Decision (Q x)} (l : list A) :
  (∀ x, x ∈ l → P x → Q x) → filter P (filter Q l) = filter P l.
Proof.
  induction l as [|x l IH]; intros HPQ; [done|].
  assert (filter P (filter Q l) = filter P l) as IH'.
  { apply IH. intros y Hy. apply HPQ. by right. }
  rewrite (filter_cons Q). destruct (decide (Q x)) as [HQ|HQ].
  - rewrite !filter_cons. destruct (decide (P x)); by rewrite IH'.
  - rewrite IH', filter_cons. rewrite decide_False; [done|].
    intros HP. apply HQ, HPQ; [by left|done].
Qed.

Lemma group_rows (rows : list Row) (d : Duplicate) (r : Row) :
  d ∈ groups rows → r ∈ rows → hash r = content_hash d →
  filename r ∈ files d.
Proof.
  unfold groups. intros (h & -> & _)%list_elem_of_fmap Hr Hh. cbn in *.
  rewrite select_filenames_perm, recorded_with_elem. destruct r as [p h'].
  cbn in *. by subst.
Qed.

(** X11.  After [Storage.remove] of a duplicate group that
    [find_duplicates] returned, the index has no row left for any path of
    the group, and [find_duplicates] returns no group with that hash and no
    group naming one of those paths.  A group that shares no path with the
    removed one is returned as before. *)
Theorem remove_then_find_duplicates (s : Session) (w : World)
    (rows : list Row) (d : Duplicate) :
  sqlite w !! db s = Some (Some rows) →
  d ∈ groups rows →
  ∃ w' ds,
    Storage.remove s d w = Return tt w' ∧
    rows_of s w' = filter (λ r, filename r ∉ files d) rows ∧
    Storage.find_duplicates s w' = Return ds w' ∧
    (∀ d', d' ∈ ds →
       content_hash d' ≠ content_hash d ∧ ∀ p, p ∈ files d' → p ∉ files d) ∧
    (∀ d', d' ∈ groups rows → (∀ p, p ∈ files d' → p ∉ files d) → d' ∈ ds).
Proof.
  intros Hdb Hd.
  destruct (storage_remove_spec s d w rows Hdb)
    as (w' & Hrun & _ & _ & _ & _ & Hdb').
  set (rows' := filter (λ r, filename r ∉ files d) rows) in *.
  exists w', (groups rows'). split; [done|]. split.
  { unfold rows_of. by rewrite Hdb'. }
  split; [by apply find_duplicates_eq|]. split.
  - intros d' Hd'. split.
    + intros Heq.
      assert (2 ≤ Storage.count_hash (content_hash d') rows') as Hcount.
      { apply select_duplicate_hashes_elem. rewrite <- groups_hashes.
        by apply list_elem_of_fmap_2. }
      assert (content_hash d' ∈ hash <$> rows') as Hin
        by (apply count_hash_pos; lia).
      apply list_elem_of_fmap in Hin as (r & Hh & Hr).
      apply list_elem_of_filter in Hr as [Hout Hr]. apply Hout.
      apply (group_rows rows); [done..|]. congruence.
    + intros p Hp Hin.
      assert (p ∈ filename <$> rows') as Hrow by by eapply groups_files.
      apply list_elem_of_fmap in Hrow as (r & -> & Hr).
      by apply list_elem_of_filter in Hr as [Hout _].
  - intros d' Hd' Hdisj.
    assert (filter (λ r, hash r = content_hash d') rows' =
            filter (λ r, hash r = content_hash d') rows) as Hsame.
    { apply filter_filter_in. intros r Hr Hh Hin.
      apply (Hdisj (filename r)); [|done]. by apply (group_rows rows). }
    pose proof Hd' as Hd''. unfold groups in Hd''.
    apply list_elem_of_fmap in Hd'' as (h & -> & Hh). cbn in Hsame.
    unfold groups. apply list_elem_of_fmap. exists h. split.
    + unfold Storage.select_filenames_with_hash. by rewrite Hsame.
    + apply select_duplicate_hashes_elem. unfold Storage.count_hash.
      rewrite Hsame. by apply select_duplicate_hashes_elem.
Qed.

Lemma remove_then_find_duplicates_witness :
  ∃ w' ds,
    Storage.remove demo_session (mkDuplicate "y" ["/pics/e.gif"; "/pics/f.gif"])
      queued_world = Return tt w' ∧
    rows_of demo_session w' =
      filter (λ r, filename r ∉ ["/pics/e.gif"; "/pics/f.gif"])
        (demo_rows ++ [mkRow "/pics/e.gif" "y"; mkRow "/pics/f.gif" "y"]) ∧
    Storage.find_duplicates demo_session w' = Return ds w'.
Proof.
  destruct (remove_then_find_duplicates demo_session queued_world
              (demo_rows ++ [mkRow "/pics/e.gif" "y"; mkRow "/pics/f.gif" "y"])
              (mkDuplicate "y" ["/pics/e.gif"; "/pics/f.gif"]))
    as (w' & ds & Hrun & Hrows & Hfind & _).
  - reflexivity.
  - vm_compute. right. left.
  - exists w', ds. by repeat split.
Defined.

(** ** analyze_dir and the queue, analyze_dir and the groups *)

Lemma process_keeps_app sha (p : string) (st : App.state) :
  (state_of (App.process sha p st)).1 = st.1.
Proof.
  unfold App.process, bind, App.in_world, App.self, gets, modify.
  cbn [fst snd].
  by destruct (Storage.store_file sha (App._session st.1) p _).
Qed.

(** X12.  [analyze_dir] resets the index before it clears the queue.  In a
    session directory that exists it discards every queued decision, also
    when the sweep is then cut short by an exception: however it ends, the
    queue is empty and [get_by_hash] finds nothing, and the session is the
    one it was.  Where neither the index file nor the directory exists,
    [reset] raises: [analyze_dir] is left by [sqlite3.OperationalError]
    with every decision still queued. *)
Theorem analyze_dir_discards_decisions sha os_walk (top : string)
    (st : App.state) :
  (session_dir (App._session st.1) ∈ dirs st.2 →
   let st' := state_of (App.analyze_dir sha os_walk top st) in
   App._session st'.1 = App._session st.1 ∧
   DeletionQueue.entries (App._delete_queue st'.1) = [] ∧
   ∀ h, DeletionQueue.get_by_hash h (App._delete_queue st'.1) = None) ∧
  (session_dir (App._session st.1) ∉ dirs st.2 →
   sqlite st.2 !! db (App._session st.1) = None →
   App.analyze_dir sha os_walk top st = Raise Storage.unable_to_open st).
Proof.
  split; [|apply analyze_dir_no_directory].
  intros Hdir st'.
  assert (st'.1 = (swept_from st).1) as Happ.
  { unfold st'. rewrite analyze_dir_unfold by done.
    apply (bind_inv (λ st1 : App.state, st1.1 = (swept_from st).1)).
    - apply (for_each_inv (λ st1 : App.state, st1.1 = (swept_from st).1));
        [|done].
      intros p st1 H1. by rewrite process_keeps_app.
    - intros _ st1 H1. exact H1. }
  rewrite Happ. by repeat split.
Qed.

Lemma analyze_dir_discards_decisions_witness :
  DeletionQueue.entries demo_queue ≠ [] ∧
  DeletionQueue.entries
    (App._delete_queue
       (state_of (App.analyze_dir plain_digest demo_walk "/pics"
                    (App.mk demo_session demo_queue, demo_world))).1) = [] ∧
  App.analyze_dir plain_digest demo_walk "/pics"
    (App.mk (mkSession "/nowhere") demo_queue, demo_world) =
    Raise Storage.unable_to_open
      (App.mk (mkSession "/nowhere") demo_queue, demo_world).
Proof.
  split; [discriminate|]. split.
  - apply (proj1 (analyze_dir_discards_decisions plain_digest demo_walk "/pics"
                    (App.mk demo_session demo_queue, demo_world))).
    apply demo_directory.
  - apply (proj2 (analyze_dir_discards_decisions plain_digest demo_walk "/pics"
                    (App.mk (mkSession "/nowhere") demo_queue, demo_world)));
      [|reflexivity].
    cbn. intros Hin. apply elem_of_singleton in Hin. discriminate Hin.
Defined.

Lemma records_elem sha (files : gmap string (option (list Byte.byte)))
    (ps : list string) (p h : string) :
  mkRow p h ∈ records sha files ps ↔
  ∃ data, p ∈ ps ∧ Storage._is_supported p = true ∧
          files !! p = Some (Some data) ∧ sha data = h.
Proof.
  unfold records. rewrite list_elem_of_omap. unfold record_of. split.
  - intros (p' & Hin & Hrec).
    destruct (Storage._is_supported p') eqn:Hsup; [|done].
    destruct (files !! p') as [[data|]|] eqn:Hf; try done.
    injection Hrec as <- <-. by exists data.
  - intros (data & Hin & Hsup & Hf & <-). exists p. split; [done|].
    by rewrite Hsup, Hf.
Qed.

(** X13.  In a session directory that exists, when every supported file
    of the walk can be read and has a name with a UTF-8 encoding,
    [analyze_dir] followed by [get_all_duplicates] returns groups in which
    a path appears exactly when the walk came by it, it is supported, and
    the digest of its bytes is the hash of the group; a hash has a group
    exactly when at least two such files carry it.  A file with the same
    bytes but an unsupported extension is in no group. *)
Theorem analyze_dir_then_duplicates sha os_walk (top : string)
    (st : App.state) :
  session_dir (App._session st.1) ∈ dirs st.2 →
  Forall (passable (disk st.2)) (walked_paths os_walk top) →
  ∃ st' ds,
    App.analyze_dir sha os_walk top st = Return tt st' ∧
    App.get_all_duplicates st' = Return ds st' ∧
    (∀ h, h ∈ content_hash <$> ds ↔
          2 ≤ Storage.count_hash h
                (records sha (disk st.2) (walked_paths os_walk top))) ∧
    (∀ d p, d ∈ ds →
       (p ∈ files d ↔
        ∃ data, p ∈ walked_paths os_walk top ∧
                Storage._is_supported p = true ∧
                disk st.2 !! p = Some (Some data) ∧
                sha data = content_hash d)).
Proof.
  intros Hdir Hall. rewrite analyze_dir_unfold by done. unfold bind.
  destruct (sweep_passable sha (walked_paths os_walk top) (swept_from st) []
              (swept_from_index st) Hall)
    as (st1 & -> & Happ & Hdisk & _ & Hrows).
  cbn [app] in Hrows. cbn [swept_from fst snd disk set_sqlite] in Hdisk, Hrows.
  set (rows := records sha (disk st.2) (walked_paths os_walk top)) in *.
  eexists _, (groups rows). split; [reflexivity|].
  assert (sqlite (LOGGER info_done st1.2) !! db (App._session st1.1) =
          Some (Some rows)) as Hdb by exact Hrows.
  split.
  { unfold App.get_all_duplicates, bind, App.self, gets, App.in_world.
    cbn [fst snd]. by rewrite (find_duplicates_eq _ _ rows Hdb). }
  split.
  - intros h. rewrite groups_hashes. apply select_duplicate_hashes_elem.
  - intros d p Hd. unfold groups in Hd.
    apply list_elem_of_fmap in Hd as (h & -> & _). cbn [files content_hash].
    rewrite select_filenames_perm, recorded_with_elem. apply records_elem.
Qed.

Lemma analyze_dir_then_duplicates_witness :
  ∃ st' ds,
    App.analyze_dir plain_digest
      (λ _, [("/pics", [], ["a.jpg"; "b.jpg"; "c.txt"])]) "/pics"
      (App.new demo_session, demo_world) = Return tt st' ∧
    App.get_all_duplicates st' = Return ds st'.
Proof.
  destruct (analyze_dir_then_duplicates plain_digest
              (λ _, [("/pics", [], ["a.jpg"; "b.jpg"; "c.txt"])]) "/pics"
              (App.new demo_session, demo_world))
    as (st' & ds & Hrun & Hdups & _).
  - apply demo_directory.
  - apply Forall_cons. split.
    { intros _. split; [by exists [Byte.x78]|reflexivity]. }
    apply Forall_cons. split.
    { intros _. split; [by exists [Byte.x78]|reflexivity]. }
    apply Forall_cons. split; [|by apply Forall_nil].
    intros Hsup. discriminate Hsup.
  - by exists st', ds.
Defined.

(** ** do_delete_queued_files: which entries the loop reaches *)






(** ** do_delete_queued_files on an index without its table *)






(** ** Sessions *)






(** ** The file to keep *)

(** X18.  Nothing checks the file to keep against the group.  [add] with a
    path that is not one of the files of the duplicate queues a decision
    whose [to_delete] view is every file of the group; with a path of the
    group, the view leaves that path out. *)
Theorem add_does_not_validate_to_keep (q : DeletionQueue.t) (d : Duplicate)
    (keep : string) :
  wf q →
  DeletionQueue.get_by_hash (content_hash d) q = None →
  ∃ e, DeletionQueue.get_by_hash (content_hash d) (DeletionQueue.add d keep q) =
         Some e ∧
       (keep ∉ files d → to_delete e = files d) ∧
       (keep ∈ files d → (keep ∉ to_delete e) ∧
                          length (to_delete e) < length (files d)).
Proof.
  intros Hwf Hnone. exists (mkDeletionEntry d keep). split.
  { by rewrite add_result, decide_True, Hnone. }
  unfold to_delete. cbn [to_keep duplicate]. rewrite to_delete_from_filter.
  split.
  - intros Hout. apply filter_all_in. intros f Hf ->. done.
  - intros Hin. split.
    + intros [Hne _]%list_elem_of_filter. done.
    + apply (length_filter_lt _ _ keep); [done|]. intros Hne. done.
Qed.

Lemma add_does_not_validate_to_keep_witness :
  ∃ e, DeletionQueue.get_by_hash "z"
         (DeletionQueue.add (mkDuplicate "z" ["/p"; "/q"]) "/elsewhere"
            demo_queue) = Some e ∧
       to_delete e = ["/p"; "/q"].
Proof.
  destruct (add_does_not_validate_to_keep demo_queue
              (mkDuplicate "z" ["/p"; "/q"]) "/elsewhere")
    as (e & Hget & Hall & _).
  - apply wf_adds, wf_new.
  - reflexivity.
  - exists e. split; [exact Hget|]. apply Hall. cbn. intros Hin.
    repeat (apply elem_of_cons in Hin as [Hin|Hin]; [discriminate Hin|]).
    by apply elem_of_nil in Hin.
Defined.

(** ** Storing a path twice *)

Lemma merge_sort_pair (f : string) : merge_sort String.le [f; f] = [f; f].
Proof.
  apply (Sorted_unique String.le).
  - apply (Sorted_merge_sort String.le).
  - repeat constructor. reflexivity.
  - apply merge_sort_Permutation.
Qed.

(** X19.  [store_file] does not look whether a path is already in the
    index.  Stored twice without a [reset] between, a supported readable
    file has two rows, and [find_duplicates] returns it as a duplicate of
    itself: when no other row carries its hash, the group is that path
    twice.  That is for a path that has a UTF-8 encoding; one that has none
    is hashed and then refused by the [INSERT], and has no row at all. *)
Theorem store_file_twice_is_a_duplicate sha (s : Session) (w : World)
    (rows : list Row) (f : string) (data : list Byte.byte) :
  sqlite w !! db s = Some (Some rows) →
  Storage._is_supported f = true →
  disk w !! f = Some (Some data) →
  Storage.count_hash (sha data) rows = 0 →
  (Py.utf8 f = true →
   ∃ w' ds,
     (Storage.store_file sha s f ;; Storage.store_file sha s f) w =
       Return tt w' ∧
     rows_of s w' = rows ++ [mkRow f (sha data); mkRow f (sha data)] ∧
     Storage.find_duplicates s w' = Return ds w' ∧
     mkDuplicate (sha data) [f; f] ∈ ds) ∧
  (Py.utf8 f = false →
   Storage.store_file sha s f w = Raise UnicodeEncodeError w).
Proof.
  intros Hdb Hsup Hdisk Hcount.
  split; [|intros Henc; by eapply store_file_not_utf8].
  intros Henc.
  set (r := mkRow f (sha data)).
  set (w1 := set_sqlite (<[db s := Some (rows ++ [r])]> (sqlite w)) w).
  set (w2 := set_sqlite (<[db s := Some ((rows ++ [r]) ++ [r])]> (sqlite w1)) w1).
  assert (sqlite w1 !! db s = Some (Some (rows ++ [r]))) as Hdb1.
  { unfold w1. cbn. by rewrite lookup_insert_eq. }
  assert (sqlite w2 !! db s = Some (Some (rows ++ [r; r]))) as Hdb2.
  { unfold w2. cbn. by rewrite lookup_insert_eq, <- app_assoc. }
  assert (filter (λ r0, hash r0 = sha data) rows = []) as Hnone.
  { unfold Storage.count_hash in Hcount. by apply nil_length_inv. }
  exists w2, (groups (rows ++ [r; r])). split; [|split; [|split]].
  - unfold bind.
    rewrite (store_file_supported sha s f w data rows Hsup Henc Hdisk Hdb).
    fold r w1.
    by rewrite (store_file_supported sha s f w1 data (rows ++ [r]) Hsup Henc
                  Hdisk Hdb1).
  - unfold rows_of. by rewrite Hdb2.
  - by apply find_duplicates_eq.
  - unfold groups. apply list_elem_of_fmap. exists (sha data). split.
    + f_equal. unfold Storage.select_filenames_with_hash.
      rewrite filter_app, Hnone. cbn [app].
      rewrite !filter_cons, !decide_True by done. cbn.
      symmetry. apply merge_sort_pair.
    + apply select_duplicate_hashes_elem. unfold Storage.count_hash.
      rewrite filter_app, Hnone. cbn [app].
      rewrite !filter_cons, !decide_True by done. cbn. lia.
Qed.

Lemma store_file_twice_is_a_duplicate_witness :
  ∃ w' ds,
    (Storage.store_file plain_digest demo_session "/pics/e.gif" ;;
     Storage.store_file plain_digest demo_session "/pics/e.gif") demo_world =
      Return tt w' ∧
    Storage.find_duplicates demo_session w' = Return ds w' ∧
    mkDuplicate (plain_digest [Byte.x79]) ["/pics/e.gif"; "/pics/e.gif"] ∈ ds.
Proof.
  destruct (store_file_twice_is_a_duplicate plain_digest demo_session
              demo_world demo_rows "/pics/e.gif" [Byte.x79])
    as [Htwice _]; [reflexivity..|].
  destruct Htwice as (w' & ds & Hrun & _ & Hfind & Hin); [reflexivity|].
  by exists w', ds.
Defined.

(** ** One decision, carried out *)



(** ** Names without a dot, as the sweep meets them *)

Lemma lower_ascii_slash (c : ascii) :
  Py.lower_ascii c = "/"%char ↔ c = "/"%char.
Proof.
  destruct c as [[] [] [] [] [] [] [] []]; vm_compute; split; congruence.
Qed.

Lemma has_slash_lower (s : string) : has_slash (Py.lower s) = has_slash s.
Proof.
  induction s as [|c s IH]; [done|]. cbn [Py.lower has_slash]. rewrite IH.
  f_equal. apply bool_decide_ext, lower_ascii_slash.
Qed.

Lemma has_slash_app (a b : string) :
  has_slash (a ++ b)%string = has_slash a || has_slash b.
Proof.
  induction a as [|c a IH]; [done|].
  change (String c a ++ b)%string with (String c (a ++ b)%string).
  cbn [has_slash]. rewrite IH. by rewrite orb_assoc.
Qed.

Lemma path_join_has_slash (a b : string) :
  a ≠ EmptyString → has_slash (Py.path_join a b) = true.
Proof.
  intros Ha. unfold Py.path_join.
  destruct (Py.starts_with_slash b) eqn:Hb.
  - destruct b as [|c b]; [done|]. cbn in *. by rewrite Hb.
  - rewrite bool_decide_eq_false_2 by done. cbn [orb].
    destruct (Py.ends_with_slash a) eqn:Hend.
    + rewrite has_slash_app.
      assert (has_slash a = true) as ->; [|done].
      clear Ha Hb. induction a as [|c a IH]; [done|].
      cbn [has_slash]. destruct a as [|c' a'].
      * cbn in Hend. by rewrite Hend.
      * rewrite IH; [apply orb_true_r|]. exact Hend.
    + rewrite !has_slash_app. cbn. apply orb_true_r.
Qed.

Lemma allow_list_no_slash (x : string) :
  x ∈ Storage.allow_list → has_slash x = false.
Proof.
  unfold Storage.allow_list. intros Hin.
  repeat (apply elem_of_cons in Hin as [->|Hin]; [reflexivity|]).
  by apply elem_of_nil in Hin.
Qed.

(** X21.  [analyze_dir] classifies the joined path, directory and all.  A
    path joined from a directory that is not the empty string and a file
    name, with no dot anywhere in it, is never supported, also when the
    file is called [png] or [jpg]: [store_file] skips it. *)
Theorem dotless_path_in_a_directory_is_skipped sha (s : Session)
    (root file : string) (w : World) :
  root ≠ EmptyString →
  Py.has_dot (Py.path_join root file) = false →
  Storage._is_supported (Py.path_join root file) = false ∧
  Storage.store_file sha s (Py.path_join root file) w =
    Return tt (LOGGER (info_skipping (Py.path_join root file)) w).
Proof.
  intros Hroot Hdot.
  assert (Storage._is_supported (Py.path_join root file) = false) as Hno.
  { destruct (Storage._is_supported (Py.path_join root file)) eqn:Hsup; [|done].
    apply is_supported_true in Hsup. rewrite extension_no_dot in Hsup by done.
    apply allow_list_no_slash in Hsup.
    rewrite has_slash_lower, path_join_has_slash in Hsup by done. done. }
  split; [done|]. unfold Storage.store_file. by rewrite Hno.
Qed.

Lemma dotless_path_in_a_directory_is_skipped_witness :
  Storage._is_supported (Py.path_join "/pics" "png") = false.
Proof.
  apply (proj1 (dotless_path_in_a_directory_is_skipped plain_digest
                  demo_session "/pics" "png" demo_world
                  ltac:(discriminate) eq_refl)).
Defined.
